(** * The cooperative-yield helper of opencti-graphql

    Source: [opencti-graphql/src/utils/eventloop-utils.ts].

    The module owns one variable, [nextYield : number | undefined], and
    exports one [async] function, [doYield] (the [maybeYield] of the
    specification).  The function reads the wall clock, compares it with
    the deadline kept in [nextYield], and either arms the deadline, leaves
    it alone, or clears it and awaits a zero-delay timer.

    The embedding keeps the shape of the source: [doYield] is a small
    program over the four effects the body performs (read the variable,
    assign it, [Date.now()], [await] a timer), and two interpreters give
    it meaning: [run_turn] executes one run-loop turn, up to the first
    [await]; [run] executes a call that its caller awaits, with nothing
    else touching [nextYield] while the timer is pending; [run_loop]
    executes a schedule of calls by several callers and of timer
    wake-ups, turn by turn.

    Numbers.  [Date.now()] is an integral number of milliseconds of
    magnitude at most 8.64e15, below 2^53, so [Date.now() + 50] and the
    comparison are exact in IEEE doubles; clock readings and deadlines are
    modelled in [Z]. *)

From Stdlib Require Import ZArith List Bool Lia Sorted.
From Stdlib Require Import Permutation.
From Stdlib Require String Ascii.
Import ListNotations String.StringSyntax Ascii.AsciiSyntax.
Delimit Scope string_scope with string.
Delimit Scope char_scope with char.
Local Open Scope Z_scope.

(** ** Effects and programs *)

(** [const MAX_EVENT_LOOP_PROCESSING_TIME = 50;]  ([BUDGET_MS]) *)
Definition MAX_EVENT_LOOP_PROCESSING_TIME : Z := 50.

(** [let nextYield: number | undefined;]  [None] is [undefined]. *)
Definition NextYield : Type := option Z.

(** A JavaScript function body as a tree of the effects it performs.
    [Throw] is an exception leaving the body. *)
Inductive Js (A : Type) : Type :=
| Ret (a : A)
| Throw
| GetNextYield (k : NextYield -> Js A)
| SetNextYield (v : NextYield) (k : Js A)
| DateNow (k : Z -> Js A)
| AwaitTimeout (delay : Z) (k : Js A).

Arguments Ret {A} a.
Arguments Throw {A}.
Arguments GetNextYield {A} k.
Arguments SetNextYield {A} v k.
Arguments DateNow {A} k.
Arguments AwaitTimeout {A} delay k.

Fixpoint bind {A B : Type} (p : Js A) (f : A -> Js B) : Js B :=
  match p with
  | Ret a => f a
  | Throw => Throw
  | GetNextYield k => GetNextYield (fun v => bind (k v) f)
  | SetNextYield v k => SetNextYield v (bind k f)
  | DateNow k => DateNow (fun t => bind (k t) f)
  | AwaitTimeout d k => AwaitTimeout d (bind k f)
  end.

Declare Scope js_scope.
Delimit Scope js_scope with js.
Notation "x <- p ;; q" := (bind p (fun x => q))
  (at level 61, p at next level, right associativity) : js_scope.
Notation "p ;; q" := (bind p (fun _ => q))
  (at level 61, right associativity) : js_scope.
Local Open Scope js_scope.

(** The value of the variable [nextYield]. *)
Definition nextYield : Js NextYield := GetNextYield (fun v => Ret v).
(** [nextYield = v;] *)
Definition assign_nextYield (v : NextYield) : Js unit := SetNextYield v (Ret tt).
(** [Date.now()] *)
Definition Date_now : Js Z := DateNow (fun t => Ret t).
(** [await new Promise((resolve) => { setTimeout(resolve, delay); });] *)
Definition await_setTimeout (delay : Z) : Js unit := AwaitTimeout delay (Ret tt).

(** [v !== undefined] *)
Definition defined (v : NextYield) : bool :=
  match v with Some _ => true | None => false end.

(** [a > v] on numbers; against [undefined] (which converts to NaN) every
    comparison is [false]. *)
Definition js_gt (a : Z) (v : NextYield) : bool :=
  match v with Some d => a >? d | None => false end.

(** ** The function *)

(** [export const doYield = async () => { ... }].  Both paths that do not
    [return true] fall through to the final [return false]. *)
Definition doYield : Js bool :=
  v <- nextYield ;;
  if defined v then
    now <- Date_now ;;
    d <- nextYield ;;
    if js_gt now d then
      assign_nextYield None ;;
      await_setTimeout 0 ;;
      Ret true
    else
      Ret false
  else
    now <- Date_now ;;
    assign_nextYield (Some (now + MAX_EVENT_LOOP_PROCESSING_TIME)) ;;
    Ret false.

(** ** Semantics *)

(** How the promise of an [async] function settles. *)
Inductive Promise (A : Type) : Type :=
| Fulfilled (a : A)
| Rejected.

Arguments Fulfilled {A} a.
Arguments Rejected {A}.

(** What a call did, in program order. *)
Inductive Event : Type :=
| Clock (t : Z)              (* Date.now() returned t *)
| Assign (v : NextYield)     (* nextYield = v *)
| Timeout (delay : Z).       (* the body was suspended on setTimeout(resolve, delay) *)

(** One run-loop turn ends with the promise settled or with the rest of
    the body parked behind a timer. *)
Inductive Turn (A : Type) : Type :=
| Settles (r : Promise A)
| Parks (delay : Z) (k : Js A).

Arguments Settles {A} r.
Arguments Parks {A} delay k.

(** One turn of [p] with the clock at [now] and the variable holding [ny]:
    the synchronous part of the body, up to its first [await]. *)
Fixpoint run_turn {A : Type} (p : Js A) (now : Z) (ny : NextYield)
  : Turn A * NextYield * list Event :=
  match p with
  | Ret a => (Settles (Fulfilled a), ny, [])
  | Throw => (Settles Rejected, ny, [])
  | GetNextYield k => run_turn (k ny) now ny
  | SetNextYield v k =>
      let '(r, ny', tr) := run_turn k now v in (r, ny', Assign v :: tr)
  | DateNow k =>
      let '(r, ny', tr) := run_turn (k now) now ny in (r, ny', Clock now :: tr)
  | AwaitTimeout d k => (Parks d k, ny, [Timeout d])
  end.

(** A call that is awaited by its only caller: when the body parks behind
    a timer, the timer fires (no earlier than [now + delay]) and the body
    goes on with the variable as it left it. *)
Fixpoint run {A : Type} (p : Js A) (now : Z) (ny : NextYield)
  : Promise A * NextYield * list Event :=
  match p with
  | Ret a => (Fulfilled a, ny, [])
  | Throw => (Rejected, ny, [])
  | GetNextYield k => run (k ny) now ny
  | SetNextYield v k =>
      let '(r, ny', tr) := run k now v in (r, ny', Assign v :: tr)
  | DateNow k =>
      let '(r, ny', tr) := run (k now) now ny in (r, ny', Clock now :: tr)
  | AwaitTimeout d k =>
      let '(r, ny', tr) := run k (now + d) ny in (r, ny', Timeout d :: tr)
  end.

(** Number of times a call was suspended. *)
Definition is_timeout (e : Event) : bool :=
  match e with Timeout _ => true | _ => false end.

Definition suspensions (tr : list Event) : nat :=
  length (filter is_timeout tr).

(** The assignments a call made to [nextYield]. *)
Definition is_assign (e : Event) : bool :=
  match e with Assign _ => true | _ => false end.

Definition assignments (tr : list Event) : list Event := filter is_assign tr.

(** ** Sequences of calls *)

(** One awaited call of [doYield] whose [Date.now()] reads [now]. *)
Definition call (now : Z) (ny : NextYield) : Promise bool * NextYield * list Event :=
  run doYield now ny.

Definition result_of {A : Type} (c : Promise A * NextYield * list Event) : Promise A :=
  fst (fst c).
Definition state_of {A : Type} (c : Promise A * NextYield * list Event) : NextYield :=
  snd (fst c).
Definition trace_of {A : Type} (c : Promise A * NextYield * list Event) : list Event :=
  snd c.

(** What an observer records of one call. *)
Record Obs : Type := mkObs {
  at_time : Z;                 (* the clock reading of the call *)
  before : NextYield;          (* nextYield when the call was made *)
  settled : Promise bool;      (* what the awaited promise gave *)
  after : NextYield;           (* nextYield when the call had completed *)
  effects : list Event         (* what the call did *)
}.

(** The calls made at the clock readings [ts], one after the other, each
    awaited before the next is made. *)
Fixpoint calls (ts : list Z) (ny : NextYield) : list Obs :=
  match ts with
  | [] => []
  | t :: ts' =>
      let '(r, ny', tr) := call t ny in
      mkObs t ny r ny' tr :: calls ts' ny'
  end.

(** [nextYield] once all the calls at [ts] have completed. *)
Fixpoint nextYield_after (ts : list Z) (ny : NextYield) : NextYield :=
  match ts with
  | [] => ny
  | t :: ts' => nextYield_after ts' (state_of (call t ny))
  end.

Definition returned_true (o : Obs) : bool :=
  match settled o with Fulfilled true => true | _ => false end.

(** Number of calls of the sequence that returned [true]. *)
Definition trues (ts : list Z) (ny : NextYield) : Z :=
  Z.of_nat (length (filter returned_true (calls ts ny))).

(** Time between the first and the last call of a sequence. *)
Definition total_elapsed_time (ts : list Z) : Z :=
  match ts with
  | [] => 0
  | t0 :: rest => last rest t0 - t0
  end.

(** ** Properties of sequences *)

(** [armed ts d]: in the sequence [ts], the deadline [d] was set by a call
    that found [nextYield] unset and read the clock at [now], with
    [d = now + MAX_EVENT_LOOP_PROCESSING_TIME] strictly later than [now],
    and no call made since has passed it. *)
Definition armed (ts : list Z) (d : Z) : Prop :=
  exists (pre : list Z) (now : Z) (post : list Z),
    ts = pre ++ now :: post /\
    nextYield_after pre None = None /\
    state_of (call now None) = Some d /\
    d = now + MAX_EVENT_LOOP_PROCESSING_TIME /\
    now < d /\
    Forall (fun t => t <= d) post.

(** The caller polls at least every [g] milliseconds: consecutive clock
    readings are at most [g] apart. *)
Fixpoint gaps_le (g : Z) (ts : list Z) : Prop :=
  match ts with
  | a :: (b :: _) as rest => b - a <= g /\ gaps_le g rest
  | _ => True
  end.

(** The property P5 of the specification, word for word: for strictly
    increasing clock readings, the number of calls that return [true] is
    [floor (total_elapsed_time / BUDGET_MS)] within plus or minus 1. *)
Definition P5_monotonic_budget (ts : list Z) : Prop :=
  Sorted Z.lt ts ->
  Z.abs (trues ts None - total_elapsed_time ts / MAX_EVENT_LOOP_PROCESSING_TIME) <= 1.

(** ** Several callers on one run loop

    [nextYield] belongs to the module, and the [await] in [doYield] hands
    control back to the run loop: while one call is parked behind its
    timer, other callers run and may call [doYield] themselves.  A
    schedule lists what the run loop does, in order. *)

Inductive Action : Type :=
| Start (now : Z)              (* a caller calls doYield; its Date.now() reads now *)
| Wake (id : nat) (now : Z).   (* the timer of the parked call number id fires *)

(** A call parked behind its timer. *)
Record InFlight : Type := mkInFlight {
  flight_id : nat;                (* its number, in the order calls start *)
  flight_now : Z;                 (* what its Date.now() read *)
  flight_left : NextYield;        (* nextYield as its first turn left it *)
  flight_rest : Js bool;          (* the body after the await *)
  flight_overlapped : list nat    (* the calls started since it parked *)
}.

(** A call whose promise has settled. *)
Record Done : Type := mkDone {
  done_id : nat;
  done_now : Z;
  done_left : NextYield;          (* nextYield as its first turn left it *)
  done_result : Promise bool;
  done_nextYield : NextYield;     (* nextYield when the call completed *)
  done_overlapped : list nat      (* the calls started while it was suspended *)
}.

Record Loop : Type := mkLoop {
  loop_nextYield : NextYield;     (* the module's variable *)
  loop_started : nat;             (* number of calls started so far *)
  loop_parked : list InFlight;
  loop_done : list Done           (* settled calls, oldest first *)
}.

(** The call number [id] starts while [f] is parked. *)
Definition overlap (id : nat) (f : InFlight) : InFlight :=
  mkInFlight (flight_id f) (flight_now f) (flight_left f) (flight_rest f)
             (flight_overlapped f ++ [id]).

(** The parked call number [id], taken out of the parked calls. *)
Fixpoint take (id : nat) (parked : list InFlight) : option (InFlight * list InFlight) :=
  match parked with
  | [] => None
  | f :: others =>
      if Nat.eqb (flight_id f) id then Some (f, others)
      else match take id others with
           | Some (g, others') => Some (g, f :: others')
           | None => None
           end
  end.

(** One action of the run loop: a first turn of [doYield] for [Start],
    the turn that resumes a parked body for [Wake] (nothing happens when
    no call of that number is parked). *)
Definition step (w : Loop) (a : Action) : Loop :=
  match a with
  | Start now =>
      let id := loop_started w in
      let parked := map (overlap id) (loop_parked w) in
      match run_turn doYield now (loop_nextYield w) with
      | (Settles r, ny', _) =>
          mkLoop ny' (S id) parked (loop_done w ++ [mkDone id now ny' r ny' []])
      | (Parks _ k, ny', _) =>
          mkLoop ny' (S id) (parked ++ [mkInFlight id now ny' k []]) (loop_done w)
      end
  | Wake id now =>
      match take id (loop_parked w) with
      | Some (f, others) =>
          match run_turn (flight_rest f) now (loop_nextYield w) with
          | (Settles r, ny', _) =>
              mkLoop ny' (loop_started w) others
                (loop_done w ++
                 [mkDone (flight_id f) (flight_now f) (flight_left f) r ny'
                         (flight_overlapped f)])
          | (Parks _ k, ny', _) =>
              mkLoop ny' (loop_started w)
                (others ++ [mkInFlight (flight_id f) (flight_now f) (flight_left f) k
                                       (flight_overlapped f)])
                (loop_done w)
          end
      | None => w
      end
  end.

(** The run loop after a schedule. *)
Definition run_loop (schedule : list Action) (w : Loop) : Loop :=
  fold_left step schedule w.

(** No call made yet, [nextYield] holding [ny]. *)
Definition boot (ny : NextYield) : Loop := mkLoop ny 0 [] [].

(** The clock readings of the calls of a schedule, in the order they start. *)
Definition starts (schedule : list Action) : list Z :=
  flat_map (fun a => match a with Start now => [now] | Wake _ _ => [] end) schedule.

(** The call number [id] of the readings [ts], made one after the other
    from [ny], is made at [now], returns [r] and leaves [left]. *)
Definition obs_at (ts : list Z) (ny : NextYield) (id : nat) (now : Z)
           (r : Promise bool) (left : NextYield) : Prop :=
  exists o : Obs,
    nth_error (calls ts ny) id = Some o /\
    at_time o = now /\ settled o = r /\ after o = left.

(** What holds of the run loop after a schedule whose calls start at the
    readings [ts], from [nextYield = ny]. *)
Record loop_inv (ts : list Z) (ny : NextYield) (w : Loop) : Prop := mk_loop_inv {
  inv_nextYield : loop_nextYield w = nextYield_after ts ny;
  inv_started : loop_started w = length ts;
  inv_parked :
    forall f : InFlight, In f (loop_parked w) ->
      flight_rest f = (Ret tt ;; Ret true)%js /\
      flight_left f = None /\
      obs_at ts ny (flight_id f) (flight_now f) (Fulfilled true) None /\
      (flight_overlapped f = [] -> loop_nextYield w = None);
  inv_done :
    forall d : Done, In d (loop_done w) ->
      obs_at ts ny (done_id d) (done_now d) (done_result d) (done_left d) /\
      (done_overlapped d = [] -> done_nextYield d = done_left d)
}.

(** The property P3 of the specification, for every call of a schedule
    that returns [true]: immediately after the call the deadline is
    unset, and the very next call, made at the same or a later reading,
    re-arms it to its [now + BUDGET_MS] and returns [false]. *)
Definition P3_rearming (schedule : list Action) (ny : NextYield) : Prop :=
  forall d : Done,
    In d (loop_done (run_loop schedule (boot ny))) ->
    done_result d = Fulfilled true ->
    done_nextYield d = None /\
    forall now' : Z,
      done_now d <= now' ->
      result_of (call now' (done_nextYield d)) = Fulfilled false /\
      state_of (call now' (done_nextYield d)) =
        Some (now' + MAX_EVENT_LOOP_PROCESSING_TIME).

(** The invariant claimed of every completed call of a schedule: the
    deadline is set after it exactly when it returned [false], unset
    exactly when it returned [true], and no two calls made one right
    after the other both return [true]. *)
Definition set_iff_returned_false (schedule : list Action) (ny : NextYield) : Prop :=
  (forall d : Done,
      In d (loop_done (run_loop schedule (boot ny))) ->
      (done_nextYield d <> None <-> done_result d = Fulfilled false) /\
      (done_result d = Fulfilled true <-> done_nextYield d = None))
  /\
  (forall d d' : Done,
      In d (loop_done (run_loop schedule (boot ny))) ->
      In d' (loop_done (run_loop schedule (boot ny))) ->
      done_id d' = S (done_id d) ->
      ~ (done_result d = Fulfilled true /\ done_result d' = Fulfilled true)).

(** * The route validator of the end-to-end tests

    Sources: [opencti-front/tests_e2e/model/RouteValidator.pageModel.ts]
    and [opencti-front/tests_e2e/routeValidation/routeConfigs.ts].

    The page model records the HTTP responses and JavaScript errors that
    the browser page reports while a route is validated, and fails the
    route on the ones it holds critical.  What Playwright does between
    the events is outside these sources; the handlers, the checks on what
    they recorded and the report are modelled. *)

Module RouteValidator.

(** [s.includes(pattern)] *)
Fixpoint includes (s pattern : String.string) : bool :=
  String.prefix pattern s
  || match s with
     | String.EmptyString => false
     | String.String _ s' => includes s' pattern
     end.

(** [interface NetworkError] *)
Record NetworkError : Type := mkNetworkError {
  url : String.string;
  status : Z;
  method : String.string;
  net_timestamp : Z
}.

Inductive Source : Type := page | console.

(** [interface JavaScriptError] *)
Record JavaScriptError : Type := mkJavaScriptError {
  message : String.string;
  stack : option String.string;
  js_timestamp : Z;
  source : Source
}.

(** The two arrays of the page model. *)
Record Errors : Type := mkErrors {
  networkErrors : list NetworkError;
  jsErrors : list JavaScriptError
}.

(** What the page emits to the handlers installed by [setupErrorHandlers]. *)
Inductive PageEvent : Type :=
| Response (status : Z) (url method : String.string)   (* page.on('response') *)
| PageError (message : String.string) (stack : option String.string)
                                                        (* page.on('pageerror') *)
| Console (type text : String.string).                  (* page.on('console') *)

Section Handlers.

(** [String.prototype.toLowerCase] and the conversion of a number in a
    template literal: built in, not part of these sources. *)
Variable toLowerCase : String.string -> String.string.
Variable number_to_string : Z -> String.string.

Definition some_pattern (patterns : list String.string) (message : String.string) : bool :=
  existsb (fun pattern => includes (toLowerCase message) (toLowerCase pattern)) patterns.

Definition ignorablePatterns : list String.string :=
  [ "WebSocket connection"; "Failed to load resource"; "favicon.ico"; "sw.js";
    "Extension"; "chrome-extension"; "Non-Error promise rejection captured";
    "ResizeObserver loop limit exceeded"; "ChunkLoadError"; "Loading chunk";
    "AbortError"; "NetworkError when attempting to fetch resource" ]%string.

Definition isIgnorableConsoleError (message : String.string) : bool :=
  some_pattern ignorablePatterns message.

Definition ignorableJsPatterns : list String.string :=
  [ "Script error"; "ResizeObserver loop limit exceeded";
    "Non-Error promise rejection captured"; "Loading CSS chunk"; "Loading chunk";
    "Network request failed"; "AbortError" ]%string.

Definition isIgnorableJSError (message : String.string) : bool :=
  some_pattern ignorableJsPatterns message.

(** The three handlers of [setupErrorHandlers], on an event that arrives
    when [Date.now()] reads [now]. *)
Definition handle (now : Z) (ev : PageEvent) (e : Errors) : Errors :=
  match ev with
  | Response status url method =>
      if status >=? 400
      then mkErrors (networkErrors e ++ [mkNetworkError url status method now])
                    (jsErrors e)
      else e
  | PageError message stack =>
      mkErrors (networkErrors e)
               (jsErrors e ++ [mkJavaScriptError message stack now page])
  | Console type text =>
      if String.eqb type "error"%string then
        if negb (isIgnorableConsoleError text)
        then mkErrors (networkErrors e)
                      (jsErrors e ++
                       [mkJavaScriptError (String.append "Console Error: "%string text)
                                          None now console])
        else e
      else e
  end.

(** The events of a validation, each with the clock reading at which its
    handler runs. *)
Fixpoint deliver (evs : list (Z * PageEvent)) (e : Errors) : Errors :=
  match evs with
  | [] => e
  | (now, ev) :: evs' => deliver evs' (handle now ev e)
  end.

(** [clearErrors()] *)
Definition clearErrors (e : Errors) : Errors := mkErrors [] [].

(** The checks that end the [try] block of [validateRoute], on what the
    handlers have recorded: [Some m] is [throw new Error(m)], [None] is
    reaching the [return] of the successful result. *)
Definition error_checks (e : Errors) : option String.string :=
  let js :=
    if (0 <? length (jsErrors e))%nat then
      let criticalJsErrors :=
        filter (fun err => negb (isIgnorableJSError (message err))) (jsErrors e) in
      match criticalJsErrors with
      | first :: _ =>
          Some (String.append "JavaScript errors detected: "%string (message first))
      | [] => None
      end
    else None in
  match js with
  | Some m => Some m
  | None =>
      let criticalNetworkErrors := filter (fun err => status err >=? 500) (networkErrors e) in
      match criticalNetworkErrors with
      | first :: _ =>
          Some (String.append "Server errors detected: "%string
                  (String.append (number_to_string (status first))
                     (String.append " "%string (url first))))
      | [] => None
      end
  end.

(** An event that does not fail the route. *)
Definition harmless (ev : PageEvent) : Prop :=
  match ev with
  | Response status _ _ => status < 500
  | PageError message _ => isIgnorableJSError message = true
  | Console type text =>
      type = "error"%string ->
      isIgnorableConsoleError text = true \/
      isIgnorableJSError (String.append "Console Error: "%string text) = true
  end.

End Handlers.

(** [interface RouteTestConfig]; [customValidation] is a callback on the
    Playwright page, of a type [V] left open. *)
Record RouteTestConfig (V : Type) : Type := mkRoute {
  path : String.string;
  name : String.string;
  requiresAuth : option bool;
  expectedElements : option (list String.string);
  skipReason : option String.string;
  timeout : option Z;
  waitForElements : option bool;
  customValidation : option V
}.

Arguments path {V} r.
Arguments name {V} r.
Arguments skipReason {V} r.

(** [interface RouteValidationResult] *)
Record RouteValidationResult (V : Type) : Type := mkResult {
  success : bool;
  route : RouteTestConfig V;
  error : option String.string;
  res_networkErrors : list NetworkError;
  res_jsErrors : list JavaScriptError;
  loadTime : Z;
  screenshot : option String.string
}.

Arguments success {V} r.
Arguments route {V} r.
Arguments error {V} r.
Arguments res_networkErrors {V} r.
Arguments res_jsErrors {V} r.
Arguments loadTime {V} r.

(** An entry of [failedRoutes]. *)
Record FailedRoute : Type := mkFailedRoute {
  failed_path : String.string;
  failed_name : String.string;
  failed_error : option String.string
}.

(** What [generateReport] returns, without the two floating-point fields
    of the summary ([successRate] and [averageLoadTime]). *)
Record Report : Type := mkReport {
  total : nat;
  successful : nat;
  failed : nat;
  totalNetworkErrors : nat;
  totalJsErrors : nat;
  failedRoutes : list FailedRoute;
  report_networkErrors : list NetworkError;
  report_jsErrors : list JavaScriptError
}.

(** [results.reduce((sum, r) => sum + f(r), 0)] *)
Definition reduce_sum {A : Type} (f : A -> nat) (results : list A) : nat :=
  fold_left (fun sum r => (sum + f r)%nat) results 0%nat.

Definition generateReport {V : Type} (results : list (RouteValidationResult V)) : Report :=
  let successful := filter (fun r => success r) results in
  let failed := filter (fun r => negb (success r)) results in
  let totalNetworkErrors := reduce_sum (fun r => length (res_networkErrors r)) results in
  let totalJsErrors := reduce_sum (fun r => length (res_jsErrors r)) results in
  {| total := length results;
     successful := length successful;
     failed := length failed;
     totalNetworkErrors := totalNetworkErrors;
     totalJsErrors := totalJsErrors;
     failedRoutes :=
       map (fun r => mkFailedRoute (path (route r)) (name (route r)) (error r)) failed;
     report_networkErrors := flat_map (fun r => res_networkErrors r) results;
     report_jsErrors := flat_map (fun r => res_jsErrors r) results |}.

(** ** The name of a failure screenshot

    A JavaScript string is a sequence of UTF-16 code units; the regular
    expression has no [u] flag and works on code units. *)

Definition is_alnum (c : Z) : bool :=
  ((48 <=? c) && (c <=? 57)) || ((65 <=? c) && (c <=? 90)) || ((97 <=? c) && (c <=? 122)).

(** [s.replace(/[^a-zA-Z0-9]/g, '-')] *)
Definition replace_non_alnum (s : list Z) : list Z :=
  map (fun c => if is_alnum c then c else 45) s.

(** [s.toLowerCase()] on a string of ASCII characters. *)
Definition toLowerCase_ascii (s : list Z) : list Z :=
  map (fun c => if (65 <=? c) && (c <=? 90) then c + 32 else c) s.

(** [config.name.replace(/[^a-zA-Z0-9]/g, '-').toLowerCase()] *)
Definition safeName (name : list Z) : list Z :=
  toLowerCase_ascii (replace_non_alnum name).

(** A digit, a lower-case letter or a dash. *)
Definition is_safe_char (c : Z) : Prop :=
  (48 <= c <= 57) \/ (97 <= c <= 122) \/ c = 45.

(** ** The route catalogue *)

Section Catalogue.

Variable V : Type.

Variables DASHBOARD_ROUTES SEARCH_ROUTES ANALYSIS_ROUTES CASE_ROUTES EVENT_ROUTES
          THREAT_ROUTES ARSENAL_ROUTES TECHNIQUE_ROUTES OBSERVATION_ROUTES
          ENTITY_ROUTES LOCATION_ROUTES DATA_ROUTES WORKSPACE_ROUTES SETTINGS_ROUTES
          PROFILE_ROUTES AUDIT_ROUTES PIR_ROUTES : list (RouteTestConfig V).

(** [array.slice(0, n)] *)
Definition slice0 {A : Type} (n : nat) (array : list A) : list A := firstn n array.

Definition getAllRoutes : list (RouteTestConfig V) :=
  DASHBOARD_ROUTES ++ SEARCH_ROUTES ++ ANALYSIS_ROUTES ++ CASE_ROUTES ++ EVENT_ROUTES
  ++ THREAT_ROUTES ++ ARSENAL_ROUTES ++ TECHNIQUE_ROUTES ++ OBSERVATION_ROUTES
  ++ ENTITY_ROUTES ++ LOCATION_ROUTES ++ DATA_ROUTES ++ WORKSPACE_ROUTES
  ++ PROFILE_ROUTES ++ PIR_ROUTES.

Definition getCriticalRoutes : list (RouteTestConfig V) :=
  DASHBOARD_ROUTES ++ slice0 2 SEARCH_ROUTES ++ slice0 1 ANALYSIS_ROUTES
  ++ slice0 1 CASE_ROUTES ++ slice0 1 THREAT_ROUTES ++ PROFILE_ROUTES.

(** The object literal [categoryMap], own properties in source order. *)
Definition categoryMap : list (String.string * list (RouteTestConfig V)) :=
  [ ("dashboard", DASHBOARD_ROUTES); ("search", SEARCH_ROUTES);
    ("analysis", ANALYSIS_ROUTES); ("cases", CASE_ROUTES); ("events", EVENT_ROUTES);
    ("threats", THREAT_ROUTES); ("arsenal", ARSENAL_ROUTES);
    ("techniques", TECHNIQUE_ROUTES); ("observations", OBSERVATION_ROUTES);
    ("entities", ENTITY_ROUTES); ("locations", LOCATION_ROUTES); ("data", DATA_ROUTES);
    ("workspaces", WORKSPACE_ROUTES); ("profile", PROFILE_ROUTES);
    ("pirs", PIR_ROUTES) ]%string.

(** The property names that an object literal inherits from
    [Object.prototype]; each holds a function or an object. *)
Definition Object_prototype_names : list String.string :=
  [ "constructor"; "__defineGetter__"; "__defineSetter__"; "hasOwnProperty";
    "__lookupGetter__"; "__lookupSetter__"; "isPrototypeOf"; "propertyIsEnumerable";
    "toString"; "valueOf"; "__proto__"; "toLocaleString" ]%string.

Fixpoint own_property {A : Type} (object : list (String.string * A)) (key : String.string)
  : option A :=
  match object with
  | [] => None
  | (k, v) :: object' => if String.eqb key k then Some v else own_property object' key
  end.

(** What [getRoutesByCategory] hands back: a list of routes, or, for a
    name found on [Object.prototype], the inherited member itself (a
    truthy value, so [||] keeps it). *)
Inductive Looked : Type :=
| RoutesOf (routes : list (RouteTestConfig V))
| Inherited (name : String.string).

(** [categoryMap[category] || []]; an array, even an empty one, is truthy. *)
Definition getRoutesByCategory (category : String.string) : Looked :=
  match own_property categoryMap category with
  | Some routes => RoutesOf routes
  | None =>
      if existsb (String.eqb category) Object_prototype_names
      then Inherited category
      else RoutesOf []
  end.

(** [ADMIN_ONLY_ROUTES] *)
Definition ADMIN_ONLY_ROUTES : list (RouteTestConfig V) :=
  SETTINGS_ROUTES ++ AUDIT_ROUTES
  ++ filter (fun r => includes (path r) "import"%string
                      || includes (path r) "processing"%string) DATA_ROUTES.

End Catalogue.

End RouteValidator.

(** * The threat map of a PIR

    Source: [opencti-front/src/private/components/pir/pir_overview/PirThreatMap.tsx].

    The component turns the nodes of its query fragment into chart items,
    keeps those whose entity type is selected in the legend, and gathers
    them into groups: an item joins the first group whose first item is
    within a day and within five points of score of it, and opens a new
    group otherwise.  Each group becomes one point of the scatter plot. *)

Module PirThreatMap.

(** A node of [stixDomainObjects], with the fields of the fragment; the
    ones the component reads through [?.] or [??] may be absent.  The
    generated fragment type is not part of these sources; [pir_score] is
    taken to be an integer. *)
Record Node : Type := mkNode {
  updated_at : String.string;
  refreshed_at : option String.string;
  entity_type : option String.string;
  representative_main : option String.string;   (* representative?.main *)
  pir_score : option Z                          (* pirInformation?.pir_score *)
}.

(** [{ date, score, name, type }] *)
Record Item : Type := mkItem {
  date : String.string;
  score : Z;
  name : String.string;
  type : String.string
}.

(** [a ?? b] *)
Definition nullish {A : Type} (a : option A) (b : A) : A :=
  match a with Some v => v | None => b end.

(** The [item] built for a node at the head of the [forEach] callback. *)
Definition item_of (d : Node) : Item :=
  {| date := nullish (refreshed_at d) (updated_at d);
     score := nullish (pir_score d) 0;
     name := nullish (representative_main d) String.EmptyString;
     type := nullish (entity_type d) String.EmptyString |}.

(** [array.includes(s)] on strings. *)
Definition includes (array : list String.string) (s : String.string) : bool :=
  existsb (String.eqb s) array.

Section Grouping.

(** [minutesBetweenDates] of [utils/Time], which is not part of these
    sources: a number of minutes between two date strings, taken to be
    whole.  Nothing below depends on what it computes. *)
Variable minutesBetweenDates : String.string -> String.string -> Z.

(** The entity types selected in the legend ([useState]). *)
Variable filteredEntityTypes : list String.string.

(** The test of the inner loop, against the first item of a group:
    [diffDate < 1440 && diffScore < 5]. *)
Definition near (first item : Item) : bool :=
  let diffDate := Z.abs (minutesBetweenDates (date first) (date item)) in
  let diffScore := Z.abs (score first - score item) in
  (diffDate <? 1440) && (diffScore <? 5).

(** [for (const group of groupedData) { ... }]: the groups after the loop
    and the flag [filled].  [group[0].date] on an empty group is a
    [TypeError], here [None]. *)
Fixpoint fill (groupedData : list (list Item)) (item : Item)
  : option (list (list Item) * bool) :=
  match groupedData with
  | [] => Some ([], false)
  | group :: rest =>
      match group with
      | [] => None
      | first :: _ =>
          if near first item
          then Some ((group ++ [item]) :: rest, true)       (* push; break *)
          else match fill rest item with
               | Some (rest', filled) => Some (group :: rest', filled)
               | None => None
               end
      end
  end.

(** The callback of [nodes.forEach]. *)
Definition place (groupedData : list (list Item)) (d : Node)
  : option (list (list Item)) :=
  let item := item_of d in
  if includes filteredEntityTypes (type item) then
    if (length groupedData =? 0)%nat then
      Some (groupedData ++ [[item]])
    else
      match fill groupedData item with
      | Some (groups, filled) =>
          Some (if negb filled then groups ++ [[item]] else groups)
      | None => None
      end
  else Some groupedData.

(** [nodes.forEach(...)] from the groups so far. *)
Fixpoint forEach (nodes : list Node) (groupedData : list (list Item))
  : option (list (list Item)) :=
  match nodes with
  | [] => Some groupedData
  | d :: nodes' =>
      match place groupedData d with
      | Some groups => forEach nodes' groups
      | None => None
      end
  end.

(** [groupedData] once the loop is over. *)
Definition groupedData (nodes : list Node) : option (list (list Item)) :=
  forEach nodes [].

(** What the loop keeps true of the groups: none is empty, the items of a
    group after the first are near the first, and no item of a later group
    is near the first item of an earlier one. *)
Fixpoint first_fit (groups : list (list Item)) : Prop :=
  match groups with
  | [] => True
  | group :: rest =>
      match group with
      | [] => False
      | first :: others =>
          Forall (fun m => near first m = true) others /\
          Forall (Forall (fun m => near first m = false)) rest
      end /\ first_fit rest
  end.

End Grouping.

(** The groups once [item] has gone through the inner loop and, when no
    group took it, has been pushed as a group of its own. *)
Definition placed (item : Item) (r : list (list Item) * bool) : list (list Item) :=
  if snd r then fst r else fst r ++ [[item]].

(** [l] is [l'] with some elements left out, the others in their order. *)
Inductive subseq {A : Type} : list A -> list A -> Prop :=
| subseq_nil : subseq [] []
| subseq_skip (a : A) (l l' : list A) : subseq l l' -> subseq l (a :: l')
| subseq_keep (a : A) (l l' : list A) : subseq l l' -> subseq (a :: l) (a :: l').

(** One entry of [series]: [{ data: [{ x, y, fillColor, meta }] }]. *)
Record Point : Type := mkPoint {
  x : String.string;            (* the string given to [new Date] *)
  y : Z;
  fillColor : String.string;
  meta_group : list Item;
  meta_size : nat
}.

Definition white : String.string := "#ffffff"%string.

Section Series.

(** [itemColor] of [utils/Colors], which is not part of these sources. *)
Variable itemColor : String.string -> String.string.

(** The callback of [groupedData.map]; [group[0]] of an empty group is
    [undefined] and reading [item.date] is a [TypeError], here [None]. *)
Definition point_of (group : list Item) : option Point :=
  match group with
  | [] => None
  | item :: _ =>
      let color := if (1 <? length group)%nat then white else itemColor (type item) in
      Some {| x := date item; y := score item; fillColor := color;
              meta_group := group; meta_size := length group |}
  end.

(** [groupedData.map(...)]: an exception in a callback leaves the map. *)
Fixpoint series (groups : list (list Item)) : option (list Point) :=
  match groups with
  | [] => Some []
  | group :: rest =>
      match point_of group, series rest with
      | Some p, Some ps => Some (p :: ps)
      | _, _ => None
      end
  end.

End Series.

(** The items that the legend lets through, in the order of the nodes. *)
Definition shown (filteredEntityTypes : list String.string) (nodes : list Node)
  : list Item :=
  filter (fun i => includes filteredEntityTypes (type i)) (map item_of nodes).

End PirThreatMap.

(** ** The three paths through the body *)

Section Paths.
Variables (now d : Z).

(** [nextYield] is [undefined]: the [else] branch arms the deadline. *)
Lemma call_unset :
  call now None =
    (Fulfilled false, Some (now + MAX_EVENT_LOOP_PROCESSING_TIME),
     [Clock now; Assign (Some (now + MAX_EVENT_LOOP_PROCESSING_TIME))]).
Proof. reflexivity. Qed.

(** The deadline is set and not passed: the inner [if] is skipped. *)
Lemma call_within (H : now <= d) :
  call now (Some d) = (Fulfilled false, Some d, [Clock now]).
Proof.
  unfold call, doYield; cbn.
  destruct (Z.gtb_spec now d) as [Hgt | _]; [lia | reflexivity].
Qed.

(** The deadline is passed: clear, await the timer, [return true]. *)
Lemma call_passed (H : d < now) :
  call now (Some d) =
    (Fulfilled true, None, [Clock now; Assign None; Timeout 0]).
Proof.
  unfold call, doYield; cbn.
  destruct (Z.gtb_spec now d) as [_ | Hle]; [reflexivity | lia].
Qed.
End Paths.

(** Case analysis on a call, by the path it takes. *)
Ltac call_cases now ny :=
  let d := fresh "d" in
  let Hd := fresh "Hd" in
  destruct ny as [d |];
  [ destruct (Z_le_gt_dec now d) as [Hd | Hd];
    [ rewrite (call_within now d Hd) in *
    | rewrite (call_passed now d ltac:(lia)) in * ]
  | rewrite (call_unset now) in * ].

(** ** Turns and awaited calls *)

(** An awaited call is its first turn, followed, when that turn parks the
    body, by the rest of the body run when the timer fires, on the
    variable as the first turn left it. *)
Lemma run_turn_run {A : Type} (p : Js A) :
  forall (now : Z) (ny : NextYield),
    match run_turn p now ny with
    | (Settles r, ny', tr) => run p now ny = (r, ny', tr)
    | (Parks d k, ny', tr) =>
        run p now ny =
          (result_of (run k (now + d) ny'), state_of (run k (now + d) ny'),
           tr ++ trace_of (run k (now + d) ny'))
    end.
Proof.
  induction p as [a | | k IH | v k IH | k IH | d k IH]; intros now ny; cbn.
  - reflexivity.
  - reflexivity.
  - apply IH.
  - specialize (IH now v).
    destruct (run_turn k now v) as [[[r | d' k'] ny'] tr]; rewrite IH; reflexivity.
  - specialize (IH now now ny).
    destruct (run_turn (k now) now ny) as [[[r | d' k'] ny'] tr]; rewrite IH; reflexivity.
  - destruct (run k (now + d) ny) as [[r ny'] tr]; reflexivity.
Qed.

(** The first turn of [doYield]: only the path that passed the deadline
    parks, after it has cleared the deadline; what is parked is the
    [return true]. *)
Lemma doYield_first_turn (now : Z) (ny : NextYield) :
  run_turn doYield now ny =
    match ny with
    | None =>
        (Settles (Fulfilled false), Some (now + MAX_EVENT_LOOP_PROCESSING_TIME),
         [Clock now; Assign (Some (now + MAX_EVENT_LOOP_PROCESSING_TIME))])
    | Some d =>
        if now >? d
        then (Parks 0 (Ret tt ;; Ret true), None, [Clock now; Assign None; Timeout 0])
        else (Settles (Fulfilled false), Some d, [Clock now])
    end.
Proof.
  destruct ny as [d |]; cbn; [destruct (now >? d) |]; reflexivity.
Qed.

(** ** Single calls *)

(** C1.  A call made while the deadline is set, at clock reading [now]
    against deadline [d]: when [now <= d] it returns [false] without
    suspending; when [now > d] it clears the deadline, is suspended exactly
    once (after the clearing, before returning) and returns [true].  At
    [now = d] it returns [false]. *)
Theorem doYield_deadline_set (now d : Z) :
  (now <= d ->
     result_of (call now (Some d)) = Fulfilled false /\
     suspensions (trace_of (call now (Some d))) = 0%nat)
  /\
  (d < now ->
     result_of (call now (Some d)) = Fulfilled true /\
     state_of (call now (Some d)) = None /\
     suspensions (trace_of (call now (Some d))) = 1%nat /\
     trace_of (call now (Some d)) = [Clock now; Assign None; Timeout 0])
  /\
  result_of (call d (Some d)) = Fulfilled false.
Proof.
  split; [| split].
  - intros H; rewrite call_within by exact H; split; reflexivity.
  - intros H; rewrite call_passed by exact H; repeat split; reflexivity.
  - rewrite call_within by lia; reflexivity.
Qed.

Lemma doYield_deadline_set_witness :
  (result_of (call 50 (Some 50)) = Fulfilled false /\
   suspensions (trace_of (call 50 (Some 50))) = 0%nat)
  /\
  (result_of (call 51 (Some 50)) = Fulfilled true /\
   state_of (call 51 (Some 50)) = None /\
   suspensions (trace_of (call 51 (Some 50))) = 1%nat /\
   trace_of (call 51 (Some 50)) = [Clock 51; Assign None; Timeout 0]).
Proof.
  split.
  - apply (proj1 (doYield_deadline_set 50 50)); lia.
  - apply (proj1 (proj2 (doYield_deadline_set 51 50))); lia.
Defined.

(** C6.  A call made while the deadline is unset, whatever the clock
    reads: it assigns [now + MAX_EVENT_LOOP_PROCESSING_TIME] to the
    deadline, is not suspended and returns [false].  So does the first
    call of every sequence that starts with the deadline unset. *)
Theorem doYield_deadline_unset (now : Z) :
  call now None =
    (Fulfilled false, Some (now + MAX_EVENT_LOOP_PROCESSING_TIME),
     [Clock now; Assign (Some (now + MAX_EVENT_LOOP_PROCESSING_TIME))])
  /\ suspensions (trace_of (call now None)) = 0%nat
  /\ forall ts : list Z,
       hd_error (calls (now :: ts) None) =
         Some (mkObs now None (Fulfilled false)
                 (Some (now + MAX_EVENT_LOOP_PROCESSING_TIME))
                 [Clock now; Assign (Some (now + MAX_EVENT_LOOP_PROCESSING_TIME))]).
Proof.
  split; [apply call_unset |].
  split; [reflexivity |].
  intros ts; reflexivity.
Qed.

(** C8.  Frame: a call made while the deadline is set and not passed makes
    no assignment to [nextYield]; the deadline after the call is the
    deadline before it. *)
Theorem doYield_frame (now d : Z) :
  now <= d ->
  state_of (call now (Some d)) = Some d /\
  assignments (trace_of (call now (Some d))) = [].
Proof.
  intros H; rewrite call_within by exact H; split; reflexivity.
Qed.

Lemma doYield_frame_witness :
  state_of (call 30 (Some 50)) = Some 50 /\
  assignments (trace_of (call 30 (Some 50))) = [].
Proof. apply (doYield_frame 30 50); lia. Defined.

(** C9.  [doYield] cannot fail.  For every clock reading and every value
    of [nextYield] the awaited promise is fulfilled with a boolean, never
    rejected, after at most one suspension.  Turn by turn: the first turn
    either fulfils the promise or parks the body behind a zero-delay
    timer, and a parked body fulfils the promise in the turn that resumes
    it, whatever the clock and [nextYield] are by then. *)
Theorem doYield_total (now : Z) (ny : NextYield) :
  (exists (b : bool) (ny' : NextYield) (tr : list Event),
      call now ny = (Fulfilled b, ny', tr) /\ (suspensions tr <= 1)%nat)
  /\
  ((exists (b : bool) (ny' : NextYield) (tr : list Event),
       run_turn doYield now ny = (Settles (Fulfilled b), ny', tr))
   \/
   (exists (k : Js bool) (ny' : NextYield) (tr : list Event),
       run_turn doYield now ny = (Parks 0 k, ny', tr) /\
       forall (now' : Z) (ny'' : NextYield),
       exists b : bool,
         run_turn k now' ny'' = (Settles (Fulfilled b), ny'', []))).
Proof.
  split.
  - call_cases now ny; do 3 eexists; (split; [reflexivity | cbn; lia]).
  - destruct ny as [d |]; cbn.
    + destruct (now >? d); cbn.
      * right; do 3 eexists; split; [reflexivity |].
        intros now' ny''; exists true; reflexivity.
      * left; do 3 eexists; reflexivity.
    + left; do 3 eexists; reflexivity.
Qed.

(** Re-arming, for a call awaited with nothing else running during its
    suspension.  When the call returns [true], [nextYield] is [undefined]
    once it has completed; the next call, made at the same or any later
    clock reading [now'], assigns [now' + MAX_EVENT_LOOP_PROCESSING_TIME]
    to it and returns [false]. *)
Theorem doYield_rearms (now : Z) (ny ny' : NextYield) (tr : list Event) :
  call now ny = (Fulfilled true, ny', tr) ->
  ny' = None /\
  forall now' : Z,
    now <= now' ->
    result_of (call now' ny') = Fulfilled false /\
    state_of (call now' ny') = Some (now' + MAX_EVENT_LOOP_PROCESSING_TIME) /\
    assignments (trace_of (call now' ny')) =
      [Assign (Some (now' + MAX_EVENT_LOOP_PROCESSING_TIME))].
Proof.
  intros H.
  assert (E : ny' = None) by (call_cases now ny; congruence).
  subst ny'; split; [reflexivity |].
  intros now' _; rewrite call_unset; repeat split; reflexivity.
Qed.

Lemma doYield_rearms_witness :
  (None : NextYield) = None /\
  forall now' : Z,
    51 <= now' ->
    result_of (call now' None) = Fulfilled false /\
    state_of (call now' None) = Some (now' + MAX_EVENT_LOOP_PROCESSING_TIME) /\
    assignments (trace_of (call now' None)) =
      [Assign (Some (now' + MAX_EVENT_LOOP_PROCESSING_TIME))].
Proof.
  apply (doYield_rearms 51 (Some 50) None [Clock 51; Assign None; Timeout 0]).
  reflexivity.
Defined.

(** ** Sequences of calls: bookkeeping *)

(** Every recorded observation is a call of [doYield] on the value that
    [nextYield] had when the call was made. *)
Lemma calls_nth (ts : list Z) :
  forall (ny : NextYield) (i : nat) (o : Obs),
    nth_error (calls ts ny) i = Some o ->
    call (at_time o) (before o) = (settled o, after o, effects o).
Proof.
  induction ts as [| t ts IH]; intros ny i o H.
  - destruct i; discriminate H.
  - cbn [calls] in H.
    destruct (call t ny) as [[r ny'] tr] eqn:E.
    destruct i as [| i]; cbn in H.
    + injection H as <-; exact E.
    + exact (IH ny' i o H).
Qed.

(** Calls follow one another: each starts with what the previous one left. *)
Lemma calls_adjacent (ts : list Z) :
  forall (ny : NextYield) (i : nat) (o o' : Obs),
    nth_error (calls ts ny) i = Some o ->
    nth_error (calls ts ny) (S i) = Some o' ->
    before o' = after o.
Proof.
  induction ts as [| t ts IH]; intros ny i o o' H H'.
  - destruct i; discriminate H.
  - cbn [calls] in H, H'.
    destruct (call t ny) as [[r ny'] tr].
    destruct i as [| i]; cbn in H, H'.
    + injection H as <-.
      destruct ts as [| t' ts]; [discriminate H' |].
      cbn [calls] in H'. destruct (call t' ny') as [[r' ny''] tr'].
      cbn in H'. injection H' as <-. reflexivity.
    + exact (IH ny' i o o' H H').
Qed.

Lemma nextYield_after_app (l1 l2 : list Z) :
  forall ny : NextYield,
    nextYield_after (l1 ++ l2) ny = nextYield_after l2 (nextYield_after l1 ny).
Proof.
  induction l1 as [| t l1 IH]; intros ny; [reflexivity | cbn; apply IH].
Qed.

(** For calls awaited one after the other: after every call the
    deadline is set exactly when the call returned [false], and unset
    exactly when it returned [true]; in any sequence of such calls, at any
    clock readings in any order and from any starting value, no two
    consecutive calls both return [true]. *)
Theorem doYield_set_iff_false :
  (forall (now : Z) (ny : NextYield),
      (state_of (call now ny) <> None <-> result_of (call now ny) = Fulfilled false) /\
      (result_of (call now ny) = Fulfilled true <-> state_of (call now ny) = None))
  /\
  (forall (ts : list Z) (ny : NextYield) (i : nat) (o o' : Obs),
      nth_error (calls ts ny) i = Some o ->
      nth_error (calls ts ny) (S i) = Some o' ->
      ~ (settled o = Fulfilled true /\ settled o' = Fulfilled true)).
Proof.
  split.
  - intros now ny; call_cases now ny; cbn; repeat split; congruence.
  - intros ts ny i o o' H H' [T T'].
    pose proof (calls_adjacent ts ny i o o' H H') as Hadj.
    pose proof (calls_nth ts ny i o H) as Ho.
    pose proof (calls_nth ts ny (S i) o' H') as Ho'.
    rewrite T in Ho. rewrite T', Hadj in Ho'.
    assert (E : after o = None)
      by (destruct (before o) as [d |] eqn:B;
          [ destruct (Z_le_gt_dec (at_time o) d);
            [ rewrite call_within in Ho by assumption
            | rewrite call_passed in Ho by lia ]
          | rewrite call_unset in Ho ]; congruence).
    rewrite E, call_unset in Ho'. discriminate Ho'.
Qed.

Lemma doYield_set_iff_false_witness :
  ~ (settled (mkObs 51 (Some 50) (Fulfilled true) None
                [Clock 51; Assign None; Timeout 0]) = Fulfilled true /\
     settled (mkObs 40 None (Fulfilled false) (Some 90)
                [Clock 40; Assign (Some 90)]) = Fulfilled true).
Proof.
  apply (proj2 doYield_set_iff_false [0; 51; 40; 200] None 1%nat); reflexivity.
Defined.

(** C3.  The scenario of the specification: calls at 0, 30, 49, 51 and 52
    from the unset deadline return false, false, false, true, false; the
    call at 0 arms the deadline to 50, the call at 51 clears it and is
    suspended once, the call at 52 arms it to 102. *)
Theorem scenario_0_30_49_51_52 :
  MAX_EVENT_LOOP_PROCESSING_TIME = 50 /\
  calls [0; 30; 49; 51; 52] None =
    [ mkObs 0 None (Fulfilled false) (Some 50) [Clock 0; Assign (Some 50)];
      mkObs 30 (Some 50) (Fulfilled false) (Some 50) [Clock 30];
      mkObs 49 (Some 50) (Fulfilled false) (Some 50) [Clock 49];
      mkObs 51 (Some 50) (Fulfilled true) None [Clock 51; Assign None; Timeout 0];
      mkObs 52 None (Fulfilled false) (Some 102) [Clock 52; Assign (Some 102)] ] /\
  map (fun o => suspensions (effects o)) (calls [0; 30; 49; 51; 52] None) =
    [0; 0; 0; 1; 0]%nat.
Proof. repeat split. Qed.

(** ** Within one budget *)

(** While no clock reading passes the deadline, calls return [false]
    without suspending and the deadline stays. *)
Lemma calls_within (ts : list Z) (d : Z) :
  Forall (fun t => t <= d) ts ->
  Forall (fun o => settled o = Fulfilled false /\ suspensions (effects o) = 0%nat)
         (calls ts (Some d))
  /\ nextYield_after ts (Some d) = Some d.
Proof.
  induction 1 as [| t ts Ht _ [IH1 IH2]]; [split; [constructor | reflexivity] |].
  cbn [calls nextYield_after]; rewrite call_within by exact Ht; cbn.
  split; [constructor; [split; reflexivity | exact IH1] | exact IH2].
Qed.

(** C5.  No premature suspension: from the unset deadline, when every
    later call is made less than [MAX_EVENT_LOOP_PROCESSING_TIME]
    milliseconds after the first one, no call returns [true] and no call
    is suspended, however many calls there are. *)
Theorem no_premature_suspension (t0 : Z) (rest : list Z) :
  (forall t : Z, In t rest -> t - t0 < MAX_EVENT_LOOP_PROCESSING_TIME) ->
  Forall (fun o => settled o = Fulfilled false /\ suspensions (effects o) = 0%nat)
         (calls (t0 :: rest) None).
Proof.
  intros H. cbn [calls]; rewrite call_unset.
  constructor; [split; reflexivity |].
  apply calls_within, Forall_forall.
  intros t Ht; specialize (H t Ht); lia.
Qed.

Lemma no_premature_suspension_witness :
  Forall (fun o => settled o = Fulfilled false /\ suspensions (effects o) = 0%nat)
         (calls [1000; 1010; 1049; 1003; 1049] None).
Proof.
  apply (no_premature_suspension 1000 [1010; 1049; 1003; 1049]).
  intros t Ht; cbn in Ht; unfold MAX_EVENT_LOOP_PROCESSING_TIME; lia.
Defined.

(** ** The armed deadline *)

(** C7.  Invariant of the shared variable.  The budget is positive, and
    after any sequence of calls from the initial [undefined], whenever
    [nextYield] holds a deadline, that deadline is the
    [now + MAX_EVENT_LOOP_PROCESSING_TIME] of the call that armed it,
    strictly later than that call's clock reading; one more call keeps
    it so. *)
Theorem deadline_invariant :
  0 < MAX_EVENT_LOOP_PROCESSING_TIME /\
  (forall (ts : list Z) (d : Z), nextYield_after ts None = Some d -> armed ts d) /\
  (forall (ts : list Z) (now : Z),
      (forall d : Z, nextYield_after ts None = Some d -> armed ts d) ->
      forall d : Z, nextYield_after (ts ++ [now]) None = Some d -> armed (ts ++ [now]) d).
Proof.
  assert (Step : forall (ts : list Z) (now : Z),
      (forall d : Z, nextYield_after ts None = Some d -> armed ts d) ->
      forall d : Z, nextYield_after (ts ++ [now]) None = Some d ->
                    armed (ts ++ [now]) d).
  { intros ts now IH d H.
    rewrite nextYield_after_app in H; cbn [nextYield_after] in H.
    destruct (nextYield_after ts None) as [d' |] eqn:E.
    - destruct (Z_le_gt_dec now d') as [Hle | Hgt].
      + rewrite call_within in H by exact Hle; cbn in H.
        injection H as <-.
        destruct (IH d' eq_refl) as (pre & t & post & -> & Hpre & Hst & Hd & Hlt & Hpost).
        exists pre, t, (post ++ [now]).
        rewrite <- app_assoc; cbn.
        repeat split; try assumption.
        apply Forall_app; split; [exact Hpost | constructor; [exact Hle | constructor]].
      + rewrite call_passed in H by lia; discriminate H.
    - rewrite call_unset in H; cbn in H. injection H as <-.
      exists ts, now, [].
      unfold MAX_EVENT_LOOP_PROCESSING_TIME.
      repeat split; try assumption; try lia; constructor. }
  split; [reflexivity |].
  split; [| exact Step].
  induction ts as [| now ts IH] using rev_ind.
  - intros d H; discriminate H.
  - exact (Step ts now IH).
Qed.

Lemma deadline_invariant_witness : armed [0; 51; 60; 70] 110.
Proof.
  apply (proj1 (proj2 deadline_invariant) [0; 51; 60; 70] 110).
  reflexivity.
Defined.

(** ** Counting suspensions against elapsed time *)

Lemma trues_cons (t : Z) (ts : list Z) (ny : NextYield) :
  trues (t :: ts) ny =
    (match result_of (call t ny) with Fulfilled true => 1 | _ => 0 end)
    + trues ts (state_of (call t ny)).
Proof.
  unfold trues; cbn [calls].
  destruct (call t ny) as [[r ny'] tr].
  cbn [filter result_of state_of fst snd].
  unfold returned_true at 1; cbn [settled].
  destruct r as [[|] |]; cbn [length]; lia.
Qed.

Lemma trues_nonneg (ts : list Z) (ny : NextYield) : 0 <= trues ts ny.
Proof. unfold trues; lia. Qed.

Lemma last_cons_default (t a : Z) (l : list Z) : last (t :: l) a = last l t.
Proof.
  revert t a; induction l as [| x l IH]; intros t a; [reflexivity |].
  change (last (t :: x :: l) a) with (last (x :: l) a).
  now rewrite (IH x a), (IH x t).
Qed.

Lemma last_default_le (a b : Z) (l : list Z) : a <= b -> last l a <= last l b.
Proof.
  intros H; destruct l as [| x l]; [exact H |].
  rewrite !last_cons_default; lia.
Qed.

(** Between two calls that return [true] the deadline is armed by a call
    and passed by a later one, so each [true] costs more than one budget
    of clock time.  [a] is the reading from which the time is counted: the
    readings of [ts] are not before it, and a deadline already set lies at
    least one budget after it. *)
Lemma trues_budget (ts : list Z) :
  forall (a : Z) (ny : NextYield),
    StronglySorted Z.lt ts ->
    Forall (fun t => a <= t) ts ->
    (forall d : Z, ny = Some d -> a + MAX_EVENT_LOOP_PROCESSING_TIME <= d) ->
    MAX_EVENT_LOOP_PROCESSING_TIME * trues ts ny <= last ts a - a.
Proof.
  induction ts as [| t ts IH]; intros a ny Hs Ha Hny.
  - unfold trues; cbn; lia.
  - apply StronglySorted_inv in Hs as [Hs Hlt].
    apply Forall_cons_iff in Ha as [Hat Ha].
    rewrite trues_cons, last_cons_default.
    assert (Hts : Forall (fun x => t <= x) ts)
      by (revert Hlt; apply Forall_impl; intros; lia).
    destruct ny as [d |].
    + specialize (Hny d eq_refl).
      destruct (Z_le_gt_dec t d) as [Hle | Hgt].
      * rewrite call_within by exact Hle; cbn [result_of state_of fst snd].
        assert (B := IH a (Some d) Hs Ha
                       ltac:(intros d' E; injection E as <-; exact Hny)).
        pose proof (last_default_le a t ts Hat). lia.
      * rewrite call_passed by lia; cbn [result_of state_of fst snd].
        assert (B := IH t None Hs Hts ltac:(intros d' E; discriminate E)).
        unfold MAX_EVENT_LOOP_PROCESSING_TIME in *. lia.
    + rewrite call_unset; cbn [result_of state_of fst snd].
      assert (B := IH t (Some (t + MAX_EVENT_LOOP_PROCESSING_TIME)) Hs Hts
                     ltac:(intros d' E; injection E as <-; lia)).
      lia.
Qed.


(** Polling every millisecond does not restore it either: one cycle of
    arming, overrunning and suspending takes 52 ms, so over 2600 ms there
    are 50 suspensions against [floor (2600 / 50) = 52]. *)
Example polling_every_ms :
  let ts := map Z.of_nat (seq 0 2601) in
  trues ts None = 50 /\
  total_elapsed_time ts / MAX_EVENT_LOOP_PROCESSING_TIME = 52.
Proof. vm_compute. split; reflexivity. Qed.



(** ** One variable, several callers *)

(** The theorems above are about calls made one after the other, each
    awaited before the next.  [nextYield] belongs to the module, not to a
    caller (the design note of the specification on shared state): a call
    that another caller makes while this one is parked finds the deadline
    cleared and arms it, and the parked call then returns [true] with the
    deadline already set again. *)
Lemma shared_between_callers (d a b now' : Z) :
  d < a ->
  run_turn doYield a (Some d) =
    (Parks 0 (Ret tt ;; Ret true), None, [Clock a; Assign None; Timeout 0]) /\
  state_of (call b None) = Some (b + MAX_EVENT_LOOP_PROCESSING_TIME) /\
  run_turn (Ret tt ;; Ret true) now' (Some (b + MAX_EVENT_LOOP_PROCESSING_TIME)) =
    (Settles (Fulfilled true), Some (b + MAX_EVENT_LOOP_PROCESSING_TIME), []).
Proof.
  intros H; rewrite doYield_first_turn.
  destruct (Z.gtb_spec a d) as [_ | Hle]; [| lia].
  repeat split.
Qed.

(** * The threat map: what the grouping guarantees *)

Section ThreatMapFacts.
Import PirThreatMap.

Variable minutesBetweenDates : String.string -> String.string -> Z.
Variable filteredEntityTypes : list String.string.
Variable itemColor : String.string -> String.string.

Local Abbreviation near := (PirThreatMap.near minutesBetweenDates).
Local Abbreviation fill := (PirThreatMap.fill minutesBetweenDates).
Local Abbreviation place := (PirThreatMap.place minutesBetweenDates filteredEntityTypes).
Local Abbreviation forEach := (PirThreatMap.forEach minutesBetweenDates filteredEntityTypes).
Local Abbreviation groupedData :=
  (PirThreatMap.groupedData minutesBetweenDates filteredEntityTypes).
Local Abbreviation first_fit := (PirThreatMap.first_fit minutesBetweenDates).
Local Abbreviation shown := (PirThreatMap.shown filteredEntityTypes).
Local Abbreviation series := (PirThreatMap.series itemColor).
Local Abbreviation point_of := (PirThreatMap.point_of itemColor).

Lemma subseq_refl {A : Type} (l : list A) : subseq l l.
Proof. induction l; constructor; assumption. Qed.

Lemma subseq_nil_l {A : Type} (l : list A) : subseq [] l.
Proof. induction l; constructor; assumption. Qed.

Lemma subseq_app_skip {A : Type} (l l' : list A) (a : A) :
  subseq l l' -> subseq l (l' ++ [a]).
Proof.
  induction 1; cbn; [apply subseq_skip | apply subseq_skip | apply subseq_keep];
    first [assumption | constructor].
Qed.

Lemma subseq_app_keep {A : Type} (l l' : list A) (a : A) :
  subseq l l' -> subseq (l ++ [a]) (l' ++ [a]).
Proof.
  induction 1; cbn; [apply subseq_keep | apply subseq_skip | apply subseq_keep];
    first [assumption | constructor].
Qed.

Lemma subseq_In {A : Type} (l l' : list A) :
  subseq l l' -> forall a : A, In a l -> In a l'.
Proof.
  induction 1 as [| b l l' _ IH | b l l' _ IH]; intros a Ha; cbn in *; intuition.
Qed.

(** The inner loop followed by the push of a new group: what one shown
    item does to the groups. *)
Lemma fill_first_fit (item : Item) (groups : list (list Item)) :
  first_fit groups ->
  exists r : list (list Item) * bool,
    fill groups item = Some r /\
    first_fit (placed item r) /\
    Permutation (concat (placed item r)) (concat groups ++ [item]) /\
    (forall Q : Item -> Prop,
        Q item -> Forall (Forall Q) groups -> Forall (Forall Q) (placed item r)) /\
    (forall seen : list Item,
        Forall (fun g => subseq g seen) groups ->
        Forall (fun g => subseq g (seen ++ [item])) (placed item r)).
Proof.
  induction groups as [| group rest IH]; intros FF.
  - exists ([], false); cbn; repeat split; auto.
    intros seen _; constructor; [| constructor].
    change [item] with ([] ++ [item]); apply subseq_app_keep, subseq_nil_l.
  - destruct FF as [Hg FFrest].
    destruct group as [| first others]; [contradiction |].
    destruct Hg as [Hnear Hfar].
    cbn [PirThreatMap.fill].
    destruct (near first item) eqn:E.
    + exists (((first :: others) ++ [item]) :: rest, true); unfold placed; cbn.
      split; [reflexivity |]. split; [| split; [| split]].
      * split; [split; [| exact Hfar] | exact FFrest].
        apply Forall_app; split; [exact Hnear | constructor; [exact E | constructor]].
      * apply Permutation_cons; [reflexivity |].
        rewrite <- !app_assoc.
        apply Permutation_app_head, Permutation_app_comm.
      * intros Q Hq HQ. apply Forall_cons_iff in HQ as [HQg HQrest].
        constructor; [| exact HQrest].
        change (Forall Q ((first :: others) ++ [item])).
        apply Forall_app; split; [exact HQg | constructor; [exact Hq | constructor]].
      * intros seen Hs. apply Forall_cons_iff in Hs as [Hsg Hsrest].
        constructor.
        -- change (subseq ((first :: others) ++ [item]) (seen ++ [item])).
           apply subseq_app_keep, Hsg.
        -- revert Hsrest; apply Forall_impl; intros g; apply subseq_app_skip.
    + destruct (IH FFrest) as ([rest' filled] & Hfill & FF' & Hperm & HQ & Hsub).
      rewrite Hfill.
      exists ((first :: others) :: rest', filled).
      assert (Eq : placed item ((first :: others) :: rest', filled) =
                   (first :: others) :: placed item (rest', filled))
        by (unfold placed; cbn; destruct filled; reflexivity).
      rewrite Eq.
      split; [reflexivity |]. split; [| split; [| split]].
      * split; [split; [exact Hnear |] | exact FF'].
        apply (HQ (fun m => near first m = false) E Hfar).
      * cbn [concat]. rewrite <- app_assoc.
        apply Permutation_app_head, Hperm.
      * intros Q Hq HQg. apply Forall_cons_iff in HQg as [HQg HQrest].
        constructor; [exact HQg | exact (HQ Q Hq HQrest)].
      * intros seen Hs. apply Forall_cons_iff in Hs as [Hsg Hsrest].
        constructor; [apply subseq_app_skip, Hsg | exact (Hsub seen Hsrest)].
Qed.

Lemma shown_cons (d : Node) (nodes : list Node) :
  shown (d :: nodes) = shown [d] ++ shown nodes.
Proof.
  unfold PirThreatMap.shown; cbn [map filter].
  destruct (includes filteredEntityTypes (type (item_of d))); reflexivity.
Qed.

(** One node through the callback of [forEach]. *)
Lemma place_first_fit (d : Node) (groups : list (list Item)) :
  first_fit groups ->
  exists groups' : list (list Item),
    place groups d = Some groups' /\
    first_fit groups' /\
    Permutation (concat groups') (concat groups ++ shown [d]) /\
    (forall seen : list Item,
        Forall (fun g => subseq g seen) groups ->
        Forall (fun g => subseq g (seen ++ shown [d])) groups').
Proof.
  intros FF. unfold PirThreatMap.place, PirThreatMap.shown; cbn [map filter].
  destruct (includes filteredEntityTypes (type (item_of d))).
  - destruct (fill_first_fit (item_of d) groups FF)
      as ([groups' filled] & Hfill & FF' & Hperm & _ & Hsub).
    destruct groups as [| g groups].
    + cbn in Hfill. injection Hfill as <- <-.
      exists [[item_of d]]; cbn. auto.
    + cbn [length Nat.eqb]. rewrite Hfill.
      exists (placed (item_of d) (groups', filled)).
      split; [unfold placed; cbn; destruct filled; reflexivity | auto].
  - exists groups. rewrite app_nil_r.
    repeat split; [exact FF | reflexivity |].
    intros seen Hs; rewrite app_nil_r; exact Hs.
Qed.

(** The whole loop, from groups that satisfy [first_fit]. *)
Lemma forEach_first_fit (nodes : list Node) :
  forall groups : list (list Item),
    first_fit groups ->
    exists groups' : list (list Item),
      forEach nodes groups = Some groups' /\
      first_fit groups' /\
      Permutation (concat groups') (concat groups ++ shown nodes) /\
      (forall seen : list Item,
          Forall (fun g => subseq g seen) groups ->
          Forall (fun g => subseq g (seen ++ shown nodes)) groups').
Proof.
  induction nodes as [| d nodes IH]; intros groups FF.
  - exists groups; cbn. rewrite app_nil_r.
    repeat split; [exact FF | reflexivity |].
    intros seen Hs; rewrite app_nil_r; exact Hs.
  - destruct (place_first_fit d groups FF) as (g1 & Hplace & FF1 & Hperm1 & Hsub1).
    destruct (IH g1 FF1) as (g2 & Hloop & FF2 & Hperm2 & Hsub2).
    exists g2. cbn [PirThreatMap.forEach]. rewrite Hplace.
    split; [exact Hloop |]. split; [exact FF2 |].
    rewrite shown_cons. split.
    + rewrite Hperm2, app_assoc. apply Permutation_app_tail, Hperm1.
    + intros seen Hs. rewrite app_assoc. apply Hsub2, Hsub1, Hs.
Qed.

Lemma groupedData_first_fit_inv (nodes : list Node) :
  exists groups : list (list Item),
    groupedData nodes = Some groups /\
    first_fit groups /\
    Permutation (concat groups) (shown nodes) /\
    Forall (fun g => subseq g (shown nodes)) groups.
Proof.
  destruct (forEach_first_fit nodes [] I) as (groups & H & FF & Hperm & Hsub).
  exists groups. repeat split; try assumption.
  apply (Hsub []); constructor.
Qed.

Lemma first_fit_nonempty (groups : list (list Item)) :
  first_fit groups -> Forall (fun g => g <> []) groups.
Proof.
  induction groups as [| g rest IH]; intros FF; constructor.
  - destruct FF as [Hg _]; destruct g; [contradiction | discriminate].
  - apply IH, FF.
Qed.

(** The groups as a reader sees them: split anywhere, the group at the
    split has its later items near its first, and nothing in it is near
    the first item of an earlier group. *)
Lemma first_fit_split (pre : list (list Item)) :
  forall (first : Item) (others : list Item) (post : list (list Item)),
    first_fit (pre ++ (first :: others) :: post) ->
    Forall (fun m => near first m = true) others /\
    Forall (fun earlier =>
              forall f0 : Item, hd_error earlier = Some f0 ->
                Forall (fun m => near f0 m = false) (first :: others)) pre.
Proof.
  induction pre as [| g pre IH]; intros first others post FF.
  - destruct FF as [[Hnear _] _]; split; [exact Hnear | constructor].
  - destruct FF as [Hg FF].
    destruct (IH first others post FF) as [Hnear Hpre].
    split; [exact Hnear |].
    constructor; [| exact Hpre].
    intros f0 Hf0. destruct g as [| g0 g']; [contradiction |].
    injection Hf0 as <-. destruct Hg as [_ Hfar].
    apply Forall_app in Hfar as [_ Hfar].
    apply Forall_cons_iff in Hfar as [Hfar _]. exact Hfar.
Qed.

Lemma series_of_nonempty (groups : list (list Item)) :
  Forall (fun g => g <> []) groups ->
  exists ps : list Point,
    series groups = Some ps /\
    map meta_group ps = groups /\
    Forall (fun p => point_of (meta_group p) = Some p) ps.
Proof.
  induction 1 as [| g rest Hg _ (ps & Hs & Hm & Hp)].
  - exists []; repeat split; constructor.
  - destruct g as [| item others]; [contradiction |].
    cbn [PirThreatMap.series]. rewrite Hs.
    destruct (point_of (item :: others)) as [p |] eqn:E; [| discriminate E].
    exists (p :: ps); cbn [map].
    assert (Hg' : meta_group p = item :: others)
      by (cbn in E; injection E as <-; reflexivity).
    rewrite Hg', Hm. repeat split.
    constructor; [rewrite Hg'; exact E | exact Hp].
Qed.

(** X1.  Neither the grouping loop nor the map that builds [series] can
    raise the [TypeError] of reading [group[0].date] on an empty group:
    for every list of nodes the loop ends, no group is empty, and
    [series] has one point per group. *)
Theorem groupedData_never_throws (nodes : list Node) :
  exists (groups : list (list Item)) (ps : list Point),
    groupedData nodes = Some groups /\
    Forall (fun g => g <> []) groups /\
    series groups = Some ps /\
    length ps = length groups.
Proof.
  destruct (groupedData_first_fit_inv nodes) as (groups & H & FF & _).
  pose proof (first_fit_nonempty groups FF) as Hne.
  destruct (series_of_nonempty groups Hne) as (ps & Hs & Hm & _).
  exists groups, ps. repeat split; try assumption.
  rewrite <- Hm; symmetry; apply length_map.
Qed.

(** X2.  The groups partition the shown items: every node whose entity
    type is selected in the legend lands in exactly one group, nothing
    else does, and there are at most as many groups as shown items. *)
Theorem groupedData_partition (nodes : list Node) :
  exists groups : list (list Item),
    groupedData nodes = Some groups /\
    Permutation (concat groups) (shown nodes) /\
    (length groups <= length (shown nodes))%nat.
Proof.
  destruct (groupedData_first_fit_inv nodes) as (groups & H & FF & Hperm & _).
  exists groups. repeat split; try assumption.
  rewrite <- (Permutation_length Hperm).
  pose proof (first_fit_nonempty groups FF) as Hne.
  clear - Hne. induction Hne as [| g rest Hg _ IH]; [constructor |].
  cbn [concat length]. rewrite length_app.
  destruct g; [contradiction | cbn; lia].
Qed.

(** X3.  First fit.  In the final groups, every item of a group after its
    first is within a day and within five points of the first, and no
    item of a group is that near to the first item of any earlier
    group. *)
Theorem groupedData_first_fit (nodes : list Node) :
  exists groups : list (list Item),
    groupedData nodes = Some groups /\
    forall (pre : list (list Item)) (first : Item) (others : list Item)
           (post : list (list Item)),
      groups = pre ++ (first :: others) :: post ->
      Forall (fun m =>
                Z.abs (minutesBetweenDates (date first) (date m)) < 1440 /\
                Z.abs (score first - score m) < 5) others /\
      Forall (fun earlier =>
                forall f0 : Item, hd_error earlier = Some f0 ->
                  Forall (fun m =>
                            ~ (Z.abs (minutesBetweenDates (date f0) (date m)) < 1440 /\
                               Z.abs (score f0 - score m) < 5))
                         (first :: others)) pre.
Proof.
  destruct (groupedData_first_fit_inv nodes) as (groups & H & FF & _).
  exists groups; split; [exact H |].
  intros pre first others post ->.
  destruct (first_fit_split pre first others post FF) as [Hnear Hfar].
  split.
  - revert Hnear; apply Forall_impl; intros m Hm.
    unfold PirThreatMap.near in Hm; cbn zeta in Hm.
    apply andb_true_iff in Hm as [H1 H2].
    apply Z.ltb_lt in H1, H2. split; assumption.
  - revert Hfar; apply Forall_impl; intros earlier He f0 Hf0.
    specialize (He f0 Hf0). revert He; apply Forall_impl; intros m Hm [H1 H2].
    unfold PirThreatMap.near in Hm; cbn zeta in Hm.
    apply andb_false_iff in Hm as [Hm | Hm]; apply Z.ltb_ge in Hm; lia.
Qed.

(** X4.  Scores within a group: every item of a group is less than five
    points from the score plotted for the group (that of its first item),
    so any two items of a group are less than ten points apart. *)
Theorem group_scores_close (nodes : list Node) :
  exists groups : list (list Item),
    groupedData nodes = Some groups /\
    forall (group : list Item) (a b : Item),
      In group groups -> In a group -> In b group ->
      Z.abs (score a - score b) < 10 /\
      forall p : Point, point_of group = Some p -> Z.abs (y p - score a) < 5.
Proof.
  destruct (groupedData_first_fit_inv nodes) as (groups & H & FF & _).
  exists groups; split; [exact H |].
  intros group a b Hg Ha Hb.
  destruct (in_split _ _ Hg) as (pre & post & ->).
  destruct group as [| first others]; [contradiction |].
  destruct (first_fit_split pre first others post FF) as [Hnear _].
  assert (Hclose : forall m, In m (first :: others) -> Z.abs (score first - score m) < 5).
  { intros m [<- | Hm]; [rewrite Z.sub_diag; cbn; lia |].
    rewrite Forall_forall in Hnear. specialize (Hnear m Hm).
    unfold PirThreatMap.near in Hnear; cbn zeta in Hnear.
    apply andb_true_iff in Hnear as [_ H2]. apply Z.ltb_lt in H2. exact H2. }
  pose proof (Hclose a Ha) as Ha'. pose proof (Hclose b Hb) as Hb'.
  split; [lia |].
  intros p Hp. cbn in Hp. injection Hp as <-. cbn [y]. exact Ha'.
Qed.

(** X5.  The points of the chart: one per group, in the order of the
    groups; the sizes of the points add up to the number of shown items;
    a point of several items is white, and a point of a single item has
    that item's date, score and type colour. *)
Theorem series_points (nodes : list Node) :
  exists (groups : list (list Item)) (ps : list Point),
    groupedData nodes = Some groups /\
    series groups = Some ps /\
    map meta_group ps = groups /\
    list_sum (map meta_size ps) = length (shown nodes) /\
    Forall (fun p =>
              meta_size p = length (meta_group p) /\
              (1 <= meta_size p)%nat /\
              ((1 < meta_size p)%nat -> fillColor p = white) /\
              (meta_size p = 1%nat ->
               exists i : Item,
                 meta_group p = [i] /\ x p = date i /\ y p = score i /\
                 fillColor p = itemColor (type i))) ps.
Proof.
  destruct (groupedData_first_fit_inv nodes) as (groups & H & FF & Hperm & _).
  pose proof (first_fit_nonempty groups FF) as Hne.
  destruct (series_of_nonempty groups Hne) as (ps & Hs & Hm & Hp).
  exists groups, ps. repeat split; try assumption.
  - rewrite <- (Permutation_length Hperm), <- Hm.
    clear - Hp. induction Hp as [| p ps Hp _ IH]; [reflexivity |].
    unfold list_sum in *. cbn [map concat fold_right]. rewrite length_app, IH. f_equal.
    destruct (meta_group p) as [| i g] eqn:E; [discriminate Hp |].
    cbn in Hp. injection Hp as Hp. rewrite <- Hp; reflexivity.
  - revert Hp; apply Forall_impl; intros p Hp.
    destruct (meta_group p) as [| i g] eqn:E; [discriminate Hp |].
    cbn in Hp. injection Hp as Hp. subst p. clear E. cbn.
    repeat split; try lia.
    + intros Hlt. destruct g; [cbn in Hlt; lia | reflexivity].
    + intros Hone. destruct g; [| discriminate Hone].
      exists i; repeat split.
Qed.

(** X6.  The chart is empty exactly when no node has a selected entity
    type; in particular with nothing selected in the legend, or with no
    node at all. *)
Theorem groupedData_empty_iff (nodes : list Node) :
  (groupedData nodes = Some [] <-> shown nodes = []) /\
  PirThreatMap.groupedData minutesBetweenDates [] nodes = Some [] /\
  groupedData [] = Some [].
Proof.
  split; [| split; [| reflexivity]].
  - destruct (groupedData_first_fit_inv nodes) as (groups & H & FF & Hperm & _).
    rewrite H. split.
    + intros E; injection E as ->. cbn in Hperm.
      apply Permutation_nil, Hperm.
    + intros E. rewrite E in Hperm. apply Permutation_sym, Permutation_nil in Hperm.
      f_equal. pose proof (first_fit_nonempty groups FF) as Hne.
      destruct Hne as [| g rest Hg _]; [reflexivity |].
      destruct g; [contradiction | discriminate Hperm].
  - induction nodes as [| d nodes IH]; [reflexivity | exact IH].
Qed.

(** X7.  Order.  Each group lists its items in the order of the nodes:
    it is the shown items with some left out.  So the item plotted for
    a group, its first, comes before the other items of the group in the
    query's order. *)
Theorem groups_in_node_order (nodes : list Node) :
  exists groups : list (list Item),
    groupedData nodes = Some groups /\
    Forall (fun g => subseq g (shown nodes)) groups.
Proof.
  destruct (groupedData_first_fit_inv nodes) as (groups & H & _ & _ & Hsub).
  exists groups; split; assumption.
Qed.

End ThreatMapFacts.

(** Example of the grouping: same day throughout except the last but one
    node; the fourth node is near the first items of both earlier groups
    and joins the first; the last node has a type that is not selected. *)
Example grouping_example :
  let minutes := fun a b : String.string => if String.eqb a b then 0 else 5000 in
  let node := fun (day : String.string) (s : Z) (t : String.string) =>
                PirThreatMap.mkNode day None (Some t) None (Some s) in
  let item := fun (day : String.string) (s : Z) (t : String.string) =>
                PirThreatMap.mkItem day s String.EmptyString t in
  PirThreatMap.groupedData minutes ["Malware"%string]
    [ node "d1"%string 50 "Malware"%string; node "d1"%string 52 "Malware"%string;
      node "d1"%string 56 "Malware"%string; node "d1"%string 53 "Malware"%string;
      node "d2"%string 50 "Malware"%string; node "d1"%string 50 "Report"%string ]
  = Some [ [ item "d1"%string 50 "Malware"%string; item "d1"%string 52 "Malware"%string;
             item "d1"%string 53 "Malware"%string ];
           [ item "d1"%string 56 "Malware"%string ];
           [ item "d2"%string 50 "Malware"%string ] ].
Proof. reflexivity. Qed.

(** * The yield helper: more on sequences of calls *)

Lemma calls_cons_within (t d : Z) (ts : list Z) :
  t <= d ->
  calls (t :: ts) (Some d) =
    mkObs t (Some d) (Fulfilled false) (Some d) [Clock t] :: calls ts (Some d).
Proof. intros H; cbn [calls]; rewrite call_within by exact H; reflexivity. Qed.

Lemma calls_cons_passed (t d : Z) (ts : list Z) :
  d < t ->
  calls (t :: ts) (Some d) =
    mkObs t (Some d) (Fulfilled true) None [Clock t; Assign None; Timeout 0]
      :: calls ts None.
Proof. intros H; cbn [calls]; rewrite call_passed by exact H; reflexivity. Qed.

Lemma calls_cons_unset (t : Z) (ts : list Z) :
  calls (t :: ts) None =
    mkObs t None (Fulfilled false) (Some (t + MAX_EVENT_LOOP_PROCESSING_TIME))
      [Clock t; Assign (Some (t + MAX_EVENT_LOOP_PROCESSING_TIME))]
      :: calls ts (Some (t + MAX_EVENT_LOOP_PROCESSING_TIME)).
Proof. reflexivity. Qed.



(** From a reading [a] on, with the clock not running backwards and a
    deadline already set lying at least one budget after [a], a call
    returns [true] only more than one budget after [a]. *)
Lemma true_after_budget (ts : list Z) :
  forall (a : Z) (ny : NextYield),
    StronglySorted Z.le ts ->
    Forall (fun t => a <= t) ts ->
    (forall d : Z, ny = Some d -> a + MAX_EVENT_LOOP_PROCESSING_TIME <= d) ->
    Forall (fun o => settled o = Fulfilled true ->
                     a + MAX_EVENT_LOOP_PROCESSING_TIME < at_time o)
           (calls ts ny).
Proof.
  induction ts as [| t ts IH]; intros a ny Hs Ha Hny; [constructor |].
  apply StronglySorted_inv in Hs as [Hs Hle].
  apply Forall_cons_iff in Ha as [Hat Ha].
  destruct ny as [d |].
  - specialize (Hny d eq_refl).
    destruct (Z_le_gt_dec t d) as [Hw | Hp].
    + rewrite calls_cons_within by exact Hw.
      constructor; [discriminate |].
      apply IH; try assumption. intros d' E; injection E as <-; exact Hny.
    + rewrite calls_cons_passed by lia.
      constructor; [intros _; cbn; lia |].
      apply IH; try assumption. intros d' E; discriminate E.
  - rewrite calls_cons_unset.
    constructor; [discriminate |].
    assert (Hmono : Forall (fun o => settled o = Fulfilled true ->
                      t + MAX_EVENT_LOOP_PROCESSING_TIME < at_time o)
                      (calls ts (Some (t + MAX_EVENT_LOOP_PROCESSING_TIME))))
      by (apply IH; [exact Hs | exact Hle | intros d' E; injection E as <-; lia]).
    revert Hmono; apply Forall_impl; intros o Ho T; specialize (Ho T); lia.
Qed.

(** X9.  Suspensions are spaced.  When the clock does not run backwards,
    two calls of a sequence that both return [true] are made more than
    [MAX_EVENT_LOOP_PROCESSING_TIME] milliseconds apart, whatever the
    value of [nextYield] at the start. *)
Theorem suspensions_spaced (ts : list Z) :
  forall (ny : NextYield) (i j : nat) (oi oj : Obs),
    Sorted Z.le ts ->
    (i < j)%nat ->
    nth_error (calls ts ny) i = Some oi ->
    nth_error (calls ts ny) j = Some oj ->
    settled oi = Fulfilled true ->
    settled oj = Fulfilled true ->
    MAX_EVENT_LOOP_PROCESSING_TIME < at_time oj - at_time oi.
Proof.
  intros ny i j oi oj Hs.
  apply Sorted_StronglySorted in Hs; [| exact Z.le_trans].
  revert ny i j oi oj.
  induction ts as [| t ts IH]; intros ny i j oi oj Hij Hi Hj Ti Tj.
  - destruct i; discriminate Hi.
  - apply StronglySorted_inv in Hs as [Hs Hle].
    destruct j as [| j]; [lia |].
    cbn [calls] in Hi, Hj.
    destruct (call t ny) as [[r ny'] tr] eqn:E.
    destruct i as [| i]; cbn in Hi, Hj.
    + injection Hi as <-. cbn in Ti |- *. subst r.
      assert (ny' = None) by (call_cases t ny; congruence). subst ny'.
      pose proof (true_after_budget ts t None Hs Hle
                    ltac:(intros d' E'; discriminate E')) as HF.
      rewrite Forall_forall in HF.
      specialize (HF oj (nth_error_In _ _ Hj) Tj). lia.
    + apply (IH Hs ny' i j oi oj); try assumption; lia.
Qed.

Lemma suspensions_spaced_witness :
  MAX_EVENT_LOOP_PROCESSING_TIME <
  at_time (mkObs 110 (Some 109) (Fulfilled true) None [Clock 110; Assign None; Timeout 0])
  - at_time (mkObs 58 (Some 50) (Fulfilled true) None [Clock 58; Assign None; Timeout 0]).
Proof.
  apply (suspensions_spaced [0; 58; 59; 110] None 1%nat 3%nat);
    first [reflexivity | repeat constructor; lia | lia].
Defined.

Lemma shared_between_callers_witness :
  run_turn doYield 51 (Some 50) =
    (Parks 0 (Ret tt ;; Ret true), None, [Clock 51; Assign None; Timeout 0]) /\
  state_of (call 52 None) = Some (52 + MAX_EVENT_LOOP_PROCESSING_TIME) /\
  run_turn (Ret tt ;; Ret true) 53 (Some (52 + MAX_EVENT_LOOP_PROCESSING_TIME)) =
    (Settles (Fulfilled true), Some (52 + MAX_EVENT_LOOP_PROCESSING_TIME), []).
Proof. apply (shared_between_callers 50 51 52 53); lia. Defined.

(** * The route validator: what the handlers and the checks guarantee *)

Section RouteValidatorFacts.
Import RouteValidator.

Variable toLowerCase : String.string -> String.string.
Variable number_to_string : Z -> String.string.

Local Abbreviation isIgnorableConsoleError :=
  (RouteValidator.isIgnorableConsoleError toLowerCase).
Local Abbreviation isIgnorableJSError := (RouteValidator.isIgnorableJSError toLowerCase).
Local Abbreviation handle := (RouteValidator.handle toLowerCase).
Local Abbreviation deliver := (RouteValidator.deliver toLowerCase).
Local Abbreviation error_checks :=
  (RouteValidator.error_checks toLowerCase number_to_string).
Local Abbreviation harmless := (RouteValidator.harmless toLowerCase).

(** The checks pass exactly when nothing recorded is critical. *)
Lemma error_checks_None (e : Errors) :
  error_checks e = None <->
  Forall (fun err => isIgnorableJSError (message err) = true) (jsErrors e) /\
  Forall (fun err => status err < 500) (networkErrors e).
Proof.
  unfold RouteValidator.error_checks; cbn zeta.
  assert (J : forall l : list JavaScriptError,
             filter (fun err => negb (isIgnorableJSError (message err))) l = [] <->
             Forall (fun err => isIgnorableJSError (message err) = true) l).
  { induction l as [| a l IH]; cbn [filter]; [split; constructor |].
    destruct (isIgnorableJSError (message a)) eqn:E; cbn [negb].
    - rewrite IH; split; [intros H; constructor; assumption | intros H; inversion H; assumption].
    - split; [discriminate | intros H; inversion H; congruence]. }
  assert (N : forall l : list NetworkError,
             filter (fun err => status err >=? 500) l = [] <->
             Forall (fun err => status err < 500) l).
  { induction l as [| a l IH]; cbn [filter]; [split; constructor |].
    destruct (Z.geb_spec (status a) 500) as [Hge | Hlt].
    - split; [discriminate | intros H; inversion H; lia].
    - rewrite IH; split; [intros H; constructor; assumption | intros H; inversion H; assumption]. }
  rewrite <- J, <- N.
  destruct (jsErrors e) as [| j js]; cbn [length Nat.ltb Nat.leb].
  - cbn [filter]. destruct (filter _ (networkErrors e)); split;
      [ intros _; split; reflexivity | reflexivity | discriminate | intros [_ H]; discriminate H ].
  - destruct (filter (fun err => negb (isIgnorableJSError (message err))) (j :: js)).
    + destruct (filter _ (networkErrors e)); split;
        [ intros _; split; reflexivity | reflexivity | discriminate | intros [_ H]; discriminate H ].
    + split; [discriminate | intros [H _]; discriminate H].
Qed.

(** One event: what its handler adds to the two arrays. *)
Lemma handle_arrays (now : Z) (ev : PageEvent) (e : Errors) :
  networkErrors (handle now ev e) =
    networkErrors e ++
    match ev with
    | Response status url method =>
        if status >=? 400 then [mkNetworkError url status method now] else []
    | _ => []
    end
  /\
  jsErrors (handle now ev e) =
    jsErrors e ++
    match ev with
    | Response _ _ _ => []
    | PageError message stack => [mkJavaScriptError message stack now page]
    | Console type text =>
        if String.eqb type "error"%string && negb (isIgnorableConsoleError text)
        then [mkJavaScriptError (String.append "Console Error: "%string text)
                None now console]
        else []
    end.
Proof.
  destruct ev as [status url method | message stack | type text];
    unfold RouteValidator.handle.
  - destruct (status >=? 400); cbn [networkErrors jsErrors];
      rewrite ?app_nil_r; split; reflexivity.
  - cbn [networkErrors jsErrors]; rewrite app_nil_r; split; reflexivity.
  - destruct (String.eqb type "error"%string); cbn [andb];
      [destruct (isIgnorableConsoleError text); cbn [negb] |];
      cbn [networkErrors jsErrors]; rewrite ?app_nil_r; split; reflexivity.
Qed.

Lemma error_checks_handle (now : Z) (ev : PageEvent) (e : Errors) :
  error_checks (handle now ev e) = None <-> error_checks e = None /\ harmless ev.
Proof.
  rewrite !error_checks_None.
  destruct (handle_arrays now ev e) as [-> ->].
  rewrite !Forall_app.
  destruct ev as [status url method | message stack | type text]; cbn [RouteValidator.harmless].
  - destruct (Z.geb_spec status 400) as [Hge | Hlt].
    + split.
      * intros [[Hj _] [Hn Hs]]. inversion Hs; subst. cbn in *. tauto.
      * intros [[Hj Hn] Hs]. repeat split; try assumption; repeat constructor; exact Hs.
    + split.
      * intros [[Hj _] [Hn _]]. repeat split; try assumption; lia.
      * intros [[Hj Hn] _]. repeat split; try assumption; constructor.
  - split.
    + intros [[Hj Hm] [Hn _]]. inversion Hm; subst. cbn in *. tauto.
    + intros [[Hj Hn] Hm]. repeat split; try assumption; repeat constructor; exact Hm.
  - destruct (String.eqb_spec type "error"%string) as [-> | Hne]; cbn [andb].
    + destruct (isIgnorableConsoleError text) eqn:Ec; cbn [negb].
      * split.
        -- intros [[Hj _] [Hn _]]. repeat split; try assumption. intros _; left; reflexivity.
        -- intros [[Hj Hn] _]. repeat split; try assumption; constructor.
      * split.
        -- intros [[Hj Hm] [Hn _]]. inversion Hm; subst. cbn in *.
           repeat split; try assumption. intros _; right; assumption.
        -- intros [[Hj Hn] Hm]. destruct (Hm eq_refl) as [Hc | Hc]; [discriminate Hc |].
           repeat split; try assumption; repeat constructor; exact Hc.
    + split.
      * intros [[Hj _] [Hn _]]. repeat split; try assumption. intros E; contradiction.
      * intros [[Hj Hn] _]. repeat split; try assumption; constructor.
Qed.


(** X11.  What a validation holds as network errors: after [clearErrors]
    the array is exactly the responses with a status of 400 or more seen
    since, in order of arrival, each with the clock reading of its
    arrival; nothing recorded before the validation is left in either
    array, and a response below 400 leaves no trace. *)
Theorem recorded_network_errors (evs : list (Z * PageEvent)) (e0 : Errors) :
  networkErrors (deliver evs (clearErrors e0)) =
    flat_map (fun '(now, ev) =>
                match ev with
                | Response status url method =>
                    if status >=? 400 then [mkNetworkError url status method now] else []
                | _ => []
                end) evs
  /\ Forall (fun err => 400 <= status err) (networkErrors (deliver evs (clearErrors e0)))
  /\ (length (jsErrors (deliver evs (clearErrors e0))) <= length evs)%nat.
Proof.
  assert (G : forall e : Errors,
            networkErrors (deliver evs e) =
              networkErrors e ++
              flat_map (fun '(now, ev) =>
                match ev with
                | Response status url method =>
                    if status >=? 400 then [mkNetworkError url status method now] else []
                | _ => []
                end) evs
            /\ (length (jsErrors (deliver evs e)) <= length (jsErrors e) + length evs)%nat).
  { induction evs as [| [now ev] evs IH]; intros e; cbn [RouteValidator.deliver flat_map].
    - rewrite app_nil_r; split; [reflexivity | lia].
    - destruct (IH (handle now ev e)) as [-> Hlen].
      destruct (handle_arrays now ev e) as [-> Hjs].
      rewrite <- app_assoc; split; [reflexivity |].
      rewrite Hjs, length_app in Hlen. cbn [length].
      destruct ev as [status url method | message stack | type text]; cbn [length] in Hlen;
        [lia | lia |].
      destruct (String.eqb type "error"%string && negb (isIgnorableConsoleError text));
        cbn [length] in Hlen; lia. }
  destruct (G (clearErrors e0)) as [-> Hlen]; cbn [clearErrors networkErrors jsErrors app length] in *.
  repeat split; [| exact Hlen].
  clear. induction evs as [| [now ev] evs IH]; cbn [flat_map]; [constructor |].
  apply Forall_app; split; [| exact IH].
  destruct ev as [status url method | |]; try constructor.
  destruct (Z.geb_spec status 400); constructor; [cbn; lia | constructor].
Qed.

End RouteValidatorFacts.

(** The handlers and the checks on a run: a 404 and an ignorable console
    error pass; a 503 fails with the message of the first server error. *)
Example error_checks_example :
  let lower := fun s : String.string => s in
  let show := fun _ : Z => "503"%string in
  let quiet := [ (10, RouteValidator.Response 200 "/"%string "GET"%string);
                 (11, RouteValidator.Response 404 "/x.png"%string "GET"%string);
                 (12, RouteValidator.Console "error"%string "favicon.ico missing"%string) ] in
  RouteValidator.error_checks lower show
    (RouteValidator.deliver lower quiet (RouteValidator.mkErrors [] [])) = None /\
  RouteValidator.error_checks lower show
    (RouteValidator.deliver lower
       (quiet ++ [ (13, RouteValidator.Response 503 "/graphql"%string "POST"%string) ])
       (RouteValidator.mkErrors [] []))
  = Some "Server errors detected: 503 /graphql"%string.
Proof. split; reflexivity. Qed.

(** * The report *)

Section ReportFacts.
Import RouteValidator.
Variable V : Type.

Lemma reduce_sum_flat_map {A B : Type} (f : A -> list B) (results : list A) :
  reduce_sum (fun r => length (f r)) results = length (flat_map f results).
Proof.
  unfold reduce_sum.
  assert (G : forall n : nat,
             fold_left (fun sum r => (sum + length (f r))%nat) results n =
             (n + length (flat_map f results))%nat).
  { induction results as [| r results IH]; intros n; cbn [fold_left flat_map].
    - cbn; lia.
    - rewrite IH, length_app; lia. }
  rewrite G; reflexivity.
Qed.

(** X12.  The report is consistent with itself: the successful and the
    failed routes add up to the total; there is one entry of
    [failedRoutes] per failed result, for the same routes in the same
    order; and the two totals of the summary are the lengths of the two
    lists of errors that the report carries.  With no result at all every
    count is zero and every list empty. *)
Theorem generateReport_consistent (results : list (RouteValidationResult V)) :
  let report := generateReport results in
  (successful report + failed report = total report)%nat /\
  length (failedRoutes report) = failed report /\
  map failed_path (failedRoutes report) =
    map (fun r => path (route r)) (filter (fun r => negb (success r)) results) /\
  totalNetworkErrors report = length (report_networkErrors report) /\
  totalJsErrors report = length (report_jsErrors report) /\
  (failed report = 0%nat <-> Forall (fun r => success r = true) results) /\
  generateReport (@nil (RouteValidationResult V)) = mkReport 0 0 0 0 0 [] [] [].
Proof.
  cbn zeta; unfold generateReport; cbn [total successful failed failedRoutes
    totalNetworkErrors totalJsErrors report_networkErrors report_jsErrors].
  repeat split.
  - apply filter_length.
  - apply length_map.
  - rewrite map_map; reflexivity.
  - apply reduce_sum_flat_map.
  - apply reduce_sum_flat_map.
  - intros H. induction results as [| r results IH]; [constructor |].
    cbn [filter] in H. destruct (success r) eqn:E; cbn [negb] in H.
    + constructor; [exact E | exact (IH H)].
    + discriminate H.
  - intros H. induction H as [| r results Hr _ IH]; [reflexivity |].
    cbn [filter]. rewrite Hr; exact IH.
Qed.

End ReportFacts.

(** * The name of a failure screenshot *)

(** X13.  The name used in the path of a failure screenshot has as many
    characters as the route name has code units, and each is a digit, a
    lower-case letter or a dash: no separator, dot or space of the route
    name reaches the file name.  Letters and digits are kept, letters in
    lower case, and a name that is already safe is left as it is. *)
Theorem safeName_safe (name : list Z) :
  length (RouteValidator.safeName name) = length name /\
  Forall RouteValidator.is_safe_char (RouteValidator.safeName name) /\
  (forall (i : nat) (c : Z),
      nth_error name i = Some c ->
      nth_error (RouteValidator.safeName name) i =
        Some (if RouteValidator.is_alnum c
              then (if (65 <=? c) && (c <=? 90) then c + 32 else c)
              else 45)) /\
  RouteValidator.safeName (RouteValidator.safeName name) = RouteValidator.safeName name.
Proof.
  unfold RouteValidator.safeName, RouteValidator.toLowerCase_ascii,
    RouteValidator.replace_non_alnum.
  rewrite !map_map, !length_map.
  assert (Step : forall c : Z,
             let c' := if RouteValidator.is_alnum c then c else 45 in
             let c'' := if (65 <=? c') && (c' <=? 90) then c' + 32 else c' in
             RouteValidator.is_safe_char c'' /\
             c'' = (if RouteValidator.is_alnum c
                    then (if (65 <=? c) && (c <=? 90) then c + 32 else c) else 45) /\
             (RouteValidator.is_safe_char c -> c'' = c)).
  { intros c; cbn zeta; unfold RouteValidator.is_alnum, RouteValidator.is_safe_char.
    destruct (Z.leb_spec 48 c), (Z.leb_spec c 57), (Z.leb_spec 65 c), (Z.leb_spec c 90),
      (Z.leb_spec 97 c), (Z.leb_spec c 122); cbn;
      repeat match goal with
             | |- context [?a <=? ?b] => destruct (Z.leb_spec a b); cbn
             end; repeat split; try lia. }
  split; [reflexivity |]. split; [| split].
  - apply Forall_forall; intros c Hc. apply in_map_iff in Hc as (c0 & <- & _).
    apply (Step c0).
  - intros i c Hi. rewrite nth_error_map, Hi; cbn [option_map].
    f_equal. apply (Step c).
  - apply map_ext; intros c.
    destruct (Step c) as (Hsafe & _ & _). cbn zeta in Hsafe.
    destruct (Step (if (65 <=? (if RouteValidator.is_alnum c then c else 45))
                       && ((if RouteValidator.is_alnum c then c else 45) <=? 90)
                    then (if RouteValidator.is_alnum c then c else 45) + 32
                    else (if RouteValidator.is_alnum c then c else 45)))
      as (_ & _ & Hfix).
    exact (Hfix Hsafe).
Qed.

(** * The route catalogue: how the collections relate *)

Section CatalogueFacts.
Import RouteValidator.

Variable V : Type.
Variables DASHBOARD_ROUTES SEARCH_ROUTES ANALYSIS_ROUTES CASE_ROUTES EVENT_ROUTES
          THREAT_ROUTES ARSENAL_ROUTES TECHNIQUE_ROUTES OBSERVATION_ROUTES
          ENTITY_ROUTES LOCATION_ROUTES DATA_ROUTES WORKSPACE_ROUTES SETTINGS_ROUTES
          PROFILE_ROUTES AUDIT_ROUTES PIR_ROUTES : list (RouteTestConfig V).

Local Abbreviation getAllRoutes :=
  (RouteValidator.getAllRoutes V DASHBOARD_ROUTES SEARCH_ROUTES ANALYSIS_ROUTES
     CASE_ROUTES EVENT_ROUTES THREAT_ROUTES ARSENAL_ROUTES TECHNIQUE_ROUTES
     OBSERVATION_ROUTES ENTITY_ROUTES LOCATION_ROUTES DATA_ROUTES WORKSPACE_ROUTES
     PROFILE_ROUTES PIR_ROUTES).
Local Abbreviation getCriticalRoutes :=
  (RouteValidator.getCriticalRoutes V DASHBOARD_ROUTES SEARCH_ROUTES ANALYSIS_ROUTES
     CASE_ROUTES THREAT_ROUTES PROFILE_ROUTES).
Local Abbreviation categoryMap :=
  (RouteValidator.categoryMap V DASHBOARD_ROUTES SEARCH_ROUTES ANALYSIS_ROUTES
     CASE_ROUTES EVENT_ROUTES THREAT_ROUTES ARSENAL_ROUTES TECHNIQUE_ROUTES
     OBSERVATION_ROUTES ENTITY_ROUTES LOCATION_ROUTES DATA_ROUTES WORKSPACE_ROUTES
     PROFILE_ROUTES PIR_ROUTES).
Local Abbreviation getRoutesByCategory :=
  (RouteValidator.getRoutesByCategory V DASHBOARD_ROUTES SEARCH_ROUTES ANALYSIS_ROUTES
     CASE_ROUTES EVENT_ROUTES THREAT_ROUTES ARSENAL_ROUTES TECHNIQUE_ROUTES
     OBSERVATION_ROUTES ENTITY_ROUTES LOCATION_ROUTES DATA_ROUTES WORKSPACE_ROUTES
     PROFILE_ROUTES PIR_ROUTES).
Local Abbreviation ADMIN_ONLY_ROUTES :=
  (RouteValidator.ADMIN_ONLY_ROUTES V DATA_ROUTES SETTINGS_ROUTES AUDIT_ROUTES).

Lemma slice0_incl {A : Type} (n : nat) (array : list A) : incl (slice0 n array) array.
Proof.
  intros a Ha. rewrite <- (firstn_skipn n array).
  apply in_or_app; left; exact Ha.
Qed.

Ltac in_all_routes :=
  unfold RouteValidator.getAllRoutes; rewrite !in_app_iff; tauto.

(** X14.  Every critical route is one of all the routes: the smoke test
    set is part of the full test set, whatever the tables hold, and has
    at most five routes besides the dashboard and profile ones. *)
Theorem critical_routes_in_all_routes :
  incl getCriticalRoutes getAllRoutes /\
  (length getCriticalRoutes
   <= length DASHBOARD_ROUTES + 5 + length PROFILE_ROUTES)%nat.
Proof.
  split.
  - intros r Hr. unfold RouteValidator.getCriticalRoutes in Hr.
    rewrite !in_app_iff in Hr.
    pose proof (slice0_incl 2 SEARCH_ROUTES r).
    pose proof (slice0_incl 1 ANALYSIS_ROUTES r).
    pose proof (slice0_incl 1 CASE_ROUTES r).
    pose proof (slice0_incl 1 THREAT_ROUTES r).
    in_all_routes.
  - unfold RouteValidator.getCriticalRoutes, slice0. rewrite !length_app.
    pose proof (firstn_le_length 2 SEARCH_ROUTES).
    pose proof (firstn_le_length 1 ANALYSIS_ROUTES).
    pose proof (firstn_le_length 1 CASE_ROUTES).
    pose proof (firstn_le_length 1 THREAT_ROUTES).
    lia.
Qed.

Lemma own_property_categoryMap (category : String.string)
      (routes : list (RouteTestConfig V)) :
  own_property categoryMap category = Some routes ->
  In (category, routes) categoryMap.
Proof.
  generalize categoryMap as object.
  induction object as [| [k v] object IH]; cbn [own_property]; [discriminate |].
  destruct (String.eqb_spec category k) as [-> | Hne].
  - intros E; injection E as <-; left; reflexivity.
  - intros E; right; exact (IH E).
Qed.

(** X15.  Looking a category up.  The routes returned for a category are
    among all the routes; a name that is neither a category nor a
    property inherited from [Object.prototype] gives the empty list; an
    inherited name (such as [constructor] or [toString]) gives back the
    inherited member, not a list; and the fifteen categories, in the
    order of [categoryMap], make up [getAllRoutes] exactly. *)
Theorem getRoutesByCategory_lookup :
  (forall (category : String.string) (routes : list (RouteTestConfig V)),
      getRoutesByCategory category = RoutesOf V routes -> incl routes getAllRoutes) /\
  (forall category : String.string,
      ~ In category (map fst categoryMap) ->
      ~ In category Object_prototype_names ->
      getRoutesByCategory category = RoutesOf V []) /\
  (forall category : String.string,
      In category Object_prototype_names ->
      getRoutesByCategory category = Inherited V category) /\
  flat_map (fun category =>
              match getRoutesByCategory category with
              | RoutesOf _ routes => routes
              | Inherited _ _ => []
              end) (map fst categoryMap)
  = getAllRoutes.
Proof.
  split; [| split; [| split]].
  - intros category routes H. unfold RouteValidator.getRoutesByCategory in H.
    destruct (own_property categoryMap category) as [routes' |] eqn:E.
    + injection H as <-. apply own_property_categoryMap in E.
      intros r Hr. cbn in E.
      repeat (destruct E as [E | E]; [injection E as _ <-; in_all_routes |]).
      contradiction.
    + destruct (existsb _ _); [discriminate H |].
      injection H as <-. intros r [].
  - intros category Hk Hp. unfold RouteValidator.getRoutesByCategory.
    destruct (own_property categoryMap category) as [routes |] eqn:E.
    + apply own_property_categoryMap in E.
      exfalso; apply Hk. apply in_map_iff. exists (category, routes); split; [reflexivity | exact E].
    + destruct (existsb (String.eqb category) Object_prototype_names) eqn:Ex; [| reflexivity].
      apply existsb_exists in Ex as (nm & Hin & Heq).
      apply String.eqb_eq in Heq; subst nm. contradiction.
  - intros category Hin. cbn in Hin.
    repeat (destruct Hin as [<- | Hin]; [reflexivity |]). contradiction.
  - cbn. rewrite ?app_nil_r. unfold RouteValidator.getAllRoutes.
    rewrite <- ?app_assoc. reflexivity.
Qed.

(** X16.  The data routes whose path contains [import] or [processing]
    are listed as admin-only and are, all the same, among the routes
    that [getAllRoutes] hands to the tests of every user. *)
Theorem admin_data_routes_in_all_routes (r : RouteTestConfig V) :
  In r DATA_ROUTES ->
  includes (path r) "import"%string || includes (path r) "processing"%string = true ->
  In r ADMIN_ONLY_ROUTES /\ In r getAllRoutes.
Proof.
  intros Hin Hpath. split.
  - unfold RouteValidator.ADMIN_ONLY_ROUTES. rewrite !in_app_iff. right; right.
    apply filter_In; split; assumption.
  - in_all_routes.
Qed.

End CatalogueFacts.

Lemma admin_data_routes_in_all_routes_witness :
  let r := RouteValidator.mkRoute unit "/dashboard/data/import"%string
             "Data Import"%string None None None None None None in
  In r (RouteValidator.ADMIN_ONLY_ROUTES unit [r] [] []) /\
  In r (RouteValidator.getAllRoutes unit [] [] [] [] [] [] [] [] [] [] [] [r] [] [] []).
Proof.
  cbv zeta.
  apply (admin_data_routes_in_all_routes unit [] [] [] [] [] [] [] [] [] [] []
           [RouteValidator.mkRoute unit "/dashboard/data/import"%string
              "Data Import"%string None None None None None None] [] [] [] [] []).
  - left; reflexivity.
  - reflexivity.
Defined.

(** * The yield helper under overlapping callers *)

(** The first turn decides.  Whatever the clock and [nextYield] are, the
    synchronous part of a call leaves [nextYield] exactly as the awaited
    call does and has done all its assignments; if it settles, it settles
    with the result of the awaited call, and if it parks (behind a
    zero-delay timer) the resumed body returns that result without
    reading or writing [nextYield], whatever other callers did to it in
    between. *)
Lemma first_turn_decides (now : Z) (ny : NextYield) :
  exists (t : Turn bool) (tr : list Event),
    run_turn doYield now ny = (t, state_of (call now ny), tr) /\
    assignments tr = assignments (trace_of (call now ny)) /\
    match t with
    | Settles r => r = result_of (call now ny) /\ tr = trace_of (call now ny)
    | Parks delay k =>
        delay = 0 /\
        result_of (call now ny) = Fulfilled true /\
        forall (now' : Z) (ny' : NextYield),
          run_turn k now' ny' = (Settles (Fulfilled true), ny', [])
    end.
Proof.
  rewrite doYield_first_turn.
  destruct ny as [d |].
  - destruct (Z.gtb_spec now d) as [Hgt | Hle].
    + rewrite call_passed by lia. do 2 eexists; split; [reflexivity |].
      split; [reflexivity |]. repeat split.
    + rewrite call_within by lia. do 2 eexists; split; [reflexivity |].
      repeat split.
  - rewrite call_unset. do 2 eexists; split; [reflexivity |]. repeat split.
Qed.

(** ** Schedules of overlapping calls *)

Lemma calls_app (ts ts' : list Z) :
  forall ny : NextYield,
    calls (ts ++ ts') ny = calls ts ny ++ calls ts' (nextYield_after ts ny).
Proof.
  induction ts as [| t ts IH]; intros ny; [reflexivity |].
  cbn [app calls nextYield_after].
  destruct (call t ny) as [[r ny'] tr]; cbn [state_of fst snd app].
  now rewrite IH.
Qed.

Lemma length_calls (ts : list Z) :
  forall ny : NextYield, length (calls ts ny) = length ts.
Proof.
  induction ts as [| t ts IH]; intros ny; [reflexivity |].
  cbn [calls]. destruct (call t ny) as [[r ny'] tr]; cbn [length].
  now rewrite IH.
Qed.

Lemma obs_at_app (ts ts' : list Z) (ny : NextYield) (id : nat) (now : Z)
      (r : Promise bool) (left : NextYield) :
  obs_at ts ny id now r left -> obs_at (ts ++ ts') ny id now r left.
Proof.
  intros (o & Ho & H). exists o; split; [| exact H].
  rewrite calls_app, nth_error_app1; [exact Ho |].
  apply nth_error_Some; congruence.
Qed.

Lemma obs_at_last (ts : list Z) (ny : NextYield) (now : Z) :
  obs_at (ts ++ [now]) ny (length ts) now
         (result_of (call now (nextYield_after ts ny)))
         (state_of (call now (nextYield_after ts ny))).
Proof.
  unfold obs_at. rewrite calls_app, nth_error_app2 by (rewrite length_calls; lia).
  rewrite length_calls, Nat.sub_diag. cbn [calls].
  destruct (call now (nextYield_after ts ny)) as [[r ny'] tr].
  eexists; split; [reflexivity |]. repeat split.
Qed.

(** A call of a sequence that returns [true] leaves the deadline unset. *)
Lemma obs_at_true_unset (ts : list Z) (ny : NextYield) (id : nat) (now : Z)
      (left : NextYield) :
  obs_at ts ny id now (Fulfilled true) left -> left = None.
Proof.
  intros (o & Ho & _ & Hr & Hl). pose proof (calls_nth ts ny id o Ho) as Hc.
  rewrite Hr, Hl in Hc.
  destruct (before o) as [d |];
    [ destruct (Z_le_gt_dec (at_time o) d);
      [ rewrite call_within in Hc by assumption | rewrite call_passed in Hc by lia ]
    | rewrite call_unset in Hc ]; congruence.
Qed.

Lemma take_spec (id : nat) (parked : list InFlight) :
  forall (f : InFlight) (others : list InFlight),
    take id parked = Some (f, others) ->
    In f parked /\ forall g : InFlight, In g others -> In g parked.
Proof.
  induction parked as [| h parked IH]; intros f others H; [discriminate H |].
  cbn [take] in H. destruct (Nat.eqb (flight_id h) id).
  - injection H as <- <-. split; [left; reflexivity | intros g Hg; right; exact Hg].
  - destruct (take id parked) as [[g' others'] |]; [| discriminate H].
    injection H as <- <-. destruct (IH g' others' eq_refl) as [Hin Hsub].
    split; [right; exact Hin |].
    intros g [<- | Hg]; [left; reflexivity | right; exact (Hsub g Hg)].
Qed.

Lemma step_inv (ts : list Z) (ny : NextYield) (w : Loop) (a : Action) :
  loop_inv ts ny w -> loop_inv (ts ++ starts [a]) ny (step w a).
Proof.
  intros [Hny Hst Hpk Hdn]. destruct a as [now | id now]; cbn [starts flat_map app].
  - (* a caller starts a call *)
    pose proof (obs_at_last ts ny now) as Hlast. rewrite <- Hny, <- Hst in Hlast.
    assert (Hold : forall f, In f (map (overlap (loop_started w)) (loop_parked w)) ->
              flight_rest f = (Ret tt ;; Ret true)%js /\ flight_left f = None /\
              obs_at (ts ++ [now]) ny (flight_id f) (flight_now f) (Fulfilled true) None /\
              (flight_overlapped f = [] -> state_of (call now (loop_nextYield w)) = None)).
    { intros f Hf. apply in_map_iff in Hf as (g & <- & Hg).
      destruct (Hpk g Hg) as (Hr & Hl & Ho & _). cbn.
      repeat split; try assumption; [apply obs_at_app, Ho |].
      intros E; apply app_eq_nil in E as [_ E]; discriminate E. }
    assert (Hdone : forall d, In d (loop_done w) ->
              obs_at (ts ++ [now]) ny (done_id d) (done_now d) (done_result d) (done_left d) /\
              (done_overlapped d = [] -> done_nextYield d = done_left d)).
    { intros d Hd. destruct (Hdn d Hd) as [Ho Hov]. split; [apply obs_at_app, Ho | exact Hov]. }
    unfold step. rewrite doYield_first_turn.
    destruct (loop_nextYield w) as [dl |] eqn:Ecur.
    + destruct (Z.gtb_spec now dl) as [Hgt | Hle].
      * rewrite call_passed in Hlast, Hold by lia. cbn [result_of state_of fst snd] in *.
        constructor; cbn [loop_nextYield loop_started loop_parked loop_done].
        -- rewrite nextYield_after_app, <- Hny; cbn [nextYield_after].
           rewrite call_passed by lia; reflexivity.
        -- rewrite length_app, Hst; cbn; lia.
        -- intros f Hf. apply in_app_or in Hf as [Hf | [<- | []]];
             [exact (Hold f Hf) |].
           cbn. split; [reflexivity |]. split; [reflexivity |].
           split; [exact Hlast | intros _; reflexivity].
        -- exact Hdone.
      * rewrite call_within in Hlast, Hold by lia. cbn [result_of state_of fst snd] in *.
        constructor; cbn [loop_nextYield loop_started loop_parked loop_done].
        -- rewrite nextYield_after_app, <- Hny; cbn [nextYield_after].
           rewrite call_within by lia; reflexivity.
        -- rewrite length_app, Hst; cbn; lia.
        -- intros f Hf. destruct (Hold f Hf) as (H1 & H2 & H3 & H4).
           repeat split; assumption.
        -- intros d Hd. apply in_app_or in Hd as [Hd | [<- | []]];
             [exact (Hdone d Hd) | cbn; split; [exact Hlast | reflexivity]].
    + rewrite call_unset in Hlast, Hold. cbn [result_of state_of fst snd] in *.
      constructor; cbn [loop_nextYield loop_started loop_parked loop_done].
      * rewrite nextYield_after_app, <- Hny; cbn [nextYield_after].
        rewrite call_unset; reflexivity.
      * rewrite length_app, Hst; cbn; lia.
      * intros f Hf. destruct (Hold f Hf) as (H1 & H2 & H3 & H4).
        repeat split; assumption.
      * intros d Hd. apply in_app_or in Hd as [Hd | [<- | []]];
          [exact (Hdone d Hd) | cbn; split; [exact Hlast | reflexivity]].
  - (* the timer of a parked call fires *)
    rewrite app_nil_r. unfold step.
    destruct (take id (loop_parked w)) as [[f others] |] eqn:Et;
      [| constructor; assumption].
    destruct (take_spec id (loop_parked w) f others Et) as [Hin Hsub].
    destruct (Hpk f Hin) as (Hr & Hl & Ho & Hov).
    rewrite Hr; cbn [bind run_turn].
    constructor; cbn [loop_nextYield loop_started loop_parked loop_done];
      try assumption.
    + intros g Hg. exact (Hpk g (Hsub g Hg)).
    + intros d Hd. apply in_app_or in Hd as [Hd | [<- | []]]; [exact (Hdn d Hd) |].
      cbn. rewrite Hl. split; [exact Ho | exact Hov].
Qed.

Lemma starts_cons (a : Action) (schedule : list Action) :
  starts (a :: schedule) = starts [a] ++ starts schedule.
Proof. unfold starts; cbn [flat_map]; now rewrite app_nil_r. Qed.

Lemma run_loop_inv (schedule : list Action) :
  forall (ts : list Z) (ny : NextYield) (w : Loop),
    loop_inv ts ny w ->
    loop_inv (ts ++ starts schedule) ny (run_loop schedule w).
Proof.
  induction schedule as [| a schedule IH]; intros ts ny w Hw.
  - cbn. rewrite app_nil_r. exact Hw.
  - rewrite starts_cons, app_assoc. cbn [run_loop fold_left].
    apply (IH (ts ++ starts [a]) ny (step w a)), step_inv, Hw.
Qed.

Lemma boot_inv (schedule : list Action) (ny : NextYield) :
  loop_inv (starts schedule) ny (run_loop schedule (boot ny)).
Proof.
  apply (run_loop_inv schedule [] ny (boot ny)).
  constructor; cbn; try reflexivity; intros ? [].
Qed.

Lemma obs_at_iff (ts : list Z) (ny : NextYield) (id : nat) (now : Z)
      (r : Promise bool) (left : NextYield) :
  obs_at ts ny id now r left ->
  (left <> None <-> r = Fulfilled false) /\ (r = Fulfilled true <-> left = None).
Proof.
  intros (o & Ho & _ & Hr & Hl). pose proof (calls_nth ts ny id o Ho) as Hc.
  rewrite Hr, Hl in Hc.
  destruct (before o) as [d |];
    [ destruct (Z_le_gt_dec (at_time o) d);
      [ rewrite call_within in Hc by assumption | rewrite call_passed in Hc by lia ]
    | rewrite call_unset in Hc ];
    injection Hc as <- <- _; repeat split; congruence.
Qed.

(** C4, as stated, fails.  The call made at 51 against the deadline 50
    clears it and parks; the call another caller makes at 52 arms the
    deadline to 102; the first call then resumes and returns [true] with
    the deadline set, and a next call at 60 would return [false] without
    re-arming. *)
Lemma P3_rearming_fails : ~ P3_rearming [Start 51; Start 52; Wake 0 53] (Some 50).
Proof.
  intros H.
  destruct (H (mkDone 0 51 None (Fulfilled true) (Some 102) [1%nat])) as [E _];
    [right; left; reflexivity | reflexivity | discriminate E].
Qed.

(** C4, amended.  A call that returns [true] has itself left the deadline
    unset, in every schedule; when no other call was started while it was
    suspended, the deadline is unset immediately after the call, and the
    very next call, made at the same or any later reading [now'], re-arms
    it to [now' + MAX_EVENT_LOOP_PROCESSING_TIME] and returns [false]. *)
Theorem rearms_unless_overlapped (schedule : list Action) (ny : NextYield) (d : Done) :
  In d (loop_done (run_loop schedule (boot ny))) ->
  done_result d = Fulfilled true ->
  done_left d = None /\
  (done_overlapped d = [] ->
   done_nextYield d = None /\
   forall now' : Z,
     done_now d <= now' ->
     result_of (call now' (done_nextYield d)) = Fulfilled false /\
     state_of (call now' (done_nextYield d)) =
       Some (now' + MAX_EVENT_LOOP_PROCESSING_TIME)).
Proof.
  intros Hd Hr.
  destruct (inv_done _ _ _ (boot_inv schedule ny) d Hd) as [Ho Hov].
  rewrite Hr in Ho. pose proof (obs_at_true_unset _ _ _ _ _ Ho) as Hl.
  split; [exact Hl |].
  intros Hn. rewrite (Hov Hn), Hl. split; [reflexivity |].
  intros now' _. rewrite call_unset. split; reflexivity.
Qed.

Lemma rearms_unless_overlapped_witness :
  (None : NextYield) = None /\
  ((@nil nat) = [] ->
   (None : NextYield) = None /\
   forall now' : Z,
     51 <= now' ->
     result_of (call now' None) = Fulfilled false /\
     state_of (call now' None) = Some (now' + MAX_EVENT_LOOP_PROCESSING_TIME)).
Proof.
  apply (rearms_unless_overlapped [Start 51; Wake 0 53; Start 60] (Some 50)
           (mkDone 0 51 None (Fulfilled true) None [])).
  - left; reflexivity.
  - reflexivity.
Defined.

(** C10, as stated, fails, on the same schedule: the call made at 51
    completes with [true] while the deadline is set to 102. *)
Lemma set_iff_returned_false_fails :
  ~ set_iff_returned_false [Start 51; Start 52; Wake 0 53] (Some 50).
Proof.
  intros [H _].
  destruct (H (mkDone 0 51 None (Fulfilled true) (Some 102) [1%nat])) as [_ [E _]];
    [right; left; reflexivity | discriminate (E eq_refl)].
Qed.

(** C10, amended.  In every schedule and for any clock readings, a call
    returns [true] exactly when its own synchronous part leaves the
    deadline unset, and [false] exactly when it leaves it set; after a
    completed call during whose suspension no other call was started the
    deadline is as the call left it, so it is set exactly when the call
    returned [false]; and two calls made one right after the other never
    both return [true]. *)
Theorem set_iff_false_unless_overlapped (schedule : list Action) (ny : NextYield) :
  (forall d : Done,
      In d (loop_done (run_loop schedule (boot ny))) ->
      ((done_left d <> None <-> done_result d = Fulfilled false) /\
       (done_result d = Fulfilled true <-> done_left d = None)) /\
      (done_overlapped d = [] ->
       (done_nextYield d <> None <-> done_result d = Fulfilled false) /\
       (done_result d = Fulfilled true <-> done_nextYield d = None)))
  /\
  (forall d d' : Done,
      In d (loop_done (run_loop schedule (boot ny))) ->
      In d' (loop_done (run_loop schedule (boot ny))) ->
      done_id d' = S (done_id d) ->
      ~ (done_result d = Fulfilled true /\ done_result d' = Fulfilled true)).
Proof.
  pose proof (boot_inv schedule ny) as Inv. split.
  - intros d Hd. destruct (inv_done _ _ _ Inv d Hd) as [Ho Hov].
    pose proof (obs_at_iff _ _ _ _ _ _ Ho) as Hiff.
    split; [exact Hiff |]. intros Hn. rewrite (Hov Hn). exact Hiff.
  - intros d d' Hd Hd' Hid [T T'].
    destruct (inv_done _ _ _ Inv d Hd) as [(o & Ho & _ & Hr & Hl) _].
    destruct (inv_done _ _ _ Inv d' Hd') as [(o' & Ho' & _ & Hr' & _) _].
    rewrite Hid in Ho'.
    pose proof (calls_adjacent _ _ _ _ _ Ho Ho') as Hadj.
    pose proof (obs_at_true_unset (starts schedule) ny (done_id d) (at_time o) (after o)
                  (ex_intro _ o (conj Ho (conj eq_refl (conj (eq_trans Hr T) eq_refl)))))
      as Hnone.
    pose proof (calls_nth _ _ _ _ Ho') as Hc.
    rewrite Hadj, Hnone, call_unset, Hr', T' in Hc. discriminate Hc.
Qed.

Lemma set_iff_false_unless_overlapped_witness :
  ~ (done_result (mkDone 0 51 None (Fulfilled true) (Some 90) [1%nat]) = Fulfilled true /\
     done_result (mkDone 1 40 (Some 90) (Fulfilled false) (Some 90) []) = Fulfilled true).
Proof.
  apply (proj2 (set_iff_false_unless_overlapped
                  [Start 51; Start 40; Wake 0 53] (Some 50))).
  - right; left; reflexivity.
  - left; reflexivity.
  - reflexivity.
Defined.

(** X17.  The first turn decides, and overlapping calls act on the
    deadline like the same calls made one after the other in the order
    they start.  For one call: its synchronous part leaves [nextYield]
    as the awaited call does and makes all its assignments; if it parks,
    it is behind a zero-delay timer, and the resumed body returns [true]
    without reading or writing [nextYield].  For every schedule of
    starts and timer wake-ups, from any value of [nextYield]: the
    variable after the schedule is the one after the calls made one
    after the other at the same readings in start order; every settled
    call returned what the call of the same number returns in that
    sequence, its first turn having left the variable as that call
    leaves it; and every call still parked is one that returns [true]
    there, and settles with [true] whenever it is woken, leaving the
    variable as it finds it. *)
Theorem overlapping_calls_like_sequential :
  (forall (now : Z) (ny : NextYield),
      exists (t : Turn bool) (tr : list Event),
        run_turn doYield now ny = (t, state_of (call now ny), tr) /\
        assignments tr = assignments (trace_of (call now ny)) /\
        match t with
        | Settles r => r = result_of (call now ny) /\ tr = trace_of (call now ny)
        | Parks delay k =>
            delay = 0 /\
            result_of (call now ny) = Fulfilled true /\
            forall (now' : Z) (ny' : NextYield),
              run_turn k now' ny' = (Settles (Fulfilled true), ny', [])
        end)
  /\
  (forall (schedule : list Action) (ny : NextYield),
      loop_nextYield (run_loop schedule (boot ny)) = nextYield_after (starts schedule) ny /\
      loop_started (run_loop schedule (boot ny)) = length (starts schedule) /\
      (forall d : Done,
          In d (loop_done (run_loop schedule (boot ny))) ->
          obs_at (starts schedule) ny (done_id d) (done_now d)
                 (done_result d) (done_left d)) /\
      (forall f : InFlight,
          In f (loop_parked (run_loop schedule (boot ny))) ->
          obs_at (starts schedule) ny (flight_id f) (flight_now f)
                 (Fulfilled true) (flight_left f) /\
          forall (now' : Z) (ny' : NextYield),
            run_turn (flight_rest f) now' ny' = (Settles (Fulfilled true), ny', []))).
Proof.
  split; [exact first_turn_decides |].
  intros schedule ny. destruct (boot_inv schedule ny) as [Hny Hst Hpk Hdn].
  split; [exact Hny |]. split; [exact Hst |]. split.
  - intros d Hd. apply (Hdn d Hd).
  - intros f Hf. destruct (Hpk f Hf) as (Hr & Hl & Ho & _).
    rewrite Hr, Hl. split; [exact Ho | intros now' ny'; reflexivity].
Qed.
